(** * AMDGPUAttributePass: kernel-entry detection and annotation

    A shallow embedding of [src/AMDGPUAttributePass.cpp].  The pass walks the
    use lists of the two OpenMP device runtime markers
    ([__kmpc_target_init], [__kmpc_target_deinit]), collects in a
    [SmallPtrSet<Function *, 8>] every function holding an instruction that
    uses both, prints one line per collected function and adds a function
    attribute to it.  Two adapters (new and legacy pass manager) wrap the same
    routine [visitor]. *)

From stdpp Require Import gmap strings list fin_maps.

(** ** The IR, as far as the pass can observe it *)

(** A [Function *] is compared by address ([I->getFunction() == &F]) and
    stored by address in the pointer set: functions are identified by the
    address of the object. *)
Definition addr := N.
Bind Scope N_scope with addr.

(** Operands.  [VFunc a] is a direct reference to the function at address
    [a]; [VConst k] refers to the [k]-th non-instruction user of the module (a
    constant expression such as a cast of a function); [VLocal n] is any other
    value (argument, instruction result, literal). *)
Inductive Value :=
  | VFunc (a : addr)
  | VConst (k : nat)
  | VLocal (n : nat).

#[global] Instance Value_eq_dec : EqDecision Value.
Proof. solve_decision. Defined.

(** Instructions: a call with its callee and arguments, or any other
    instruction (store, cast, compare, ...) with its operands. *)
Inductive Instruction :=
  | Call (callee : Value) (args : list Value)
  | Op (operands : list Value).

(** The operand list of an instruction; LLVM keeps the callee as the last
    operand of a call. *)
Definition getOperands (I : Instruction) : list Value :=
  match I with
  | Call callee args => args ++ [callee]
  | Op operands => operands
  end.

Record Function := mkFunction {
  F_addr : addr;
  F_name : string;
  F_attrs : gmap string string;   (* attribute kind to attribute value *)
  F_blocks : list (list Instruction)
}.

(** A module owns its functions, in order ([for (Function &F : M)] follows
    this order), and its non-instruction users (constant expressions, global
    initialisers), each given by its operands. *)
Record Module := mkModule {
  M_functions : list Function;
  M_constants : list (list Value)
}.

(** *** Use lists *)

(** [U.getUser()] is either an instruction, which knows its enclosing
    function ([getFunction()], null for an instruction outside any function),
    or some other user. *)
Inductive User :=
  | UInstruction (parent : option addr) (I : Instruction)
  | UConstant (k : nat).

Record Use := mkUse { getUser : User; getOperandNo : nat }.

(** [dyn_cast<Instruction>(U.getUser())] with the instruction's
    [getFunction()]. *)
Definition dyn_cast_Instruction (u : User) : option (option addr) :=
  match u with
  | UInstruction parent _ => Some parent
  | UConstant _ => None
  end.

(** The operand slots of [ops] that hold [v]. *)
Definition slots_of (v : Value) (ops : list Value) : list nat :=
  (λ p, p.1) <$> filter (λ p, p.2 = v) (imap (λ i o, (i, o)) ops).

Definition instruction_uses (v : Value) (parent : option addr) (I : Instruction)
  : list Use :=
  mkUse (UInstruction parent I) <$> slots_of v (getOperands I).

Definition function_uses (v : Value) (F : Function) : list Use :=
  concat (F_blocks F) ≫= instruction_uses v (Some (F_addr F)).

Definition constant_uses (v : Value) (k : nat) (ops : list Value) : list Use :=
  mkUse (UConstant k) <$> slots_of v ops.

(** [V->uses()] for the function at address [a].  LLVM keeps, for every
    value, the list of the operand slots that hold it; here the list is read
    off the module: one use per operand slot, anywhere in the module, that
    holds a reference to the function.  The order of LLVM's list is not
    reproduced; the scan of the pass does not depend on it
    ([scan_uses_Permutation]). *)
Definition uses (M : Module) (a : addr) : list Use :=
  (M_functions M ≫= function_uses (VFunc a))
  ++ concat (imap (constant_uses (VFunc a)) (M_constants M)).

(** ** [SmallPtrSet<Function *, 8>]

    The container is LLVM's ([llvm/ADT/SmallPtrSet.h], [SmallPtrSet.cpp]), not
    code of this repository.  It is modelled after that implementation: up to
    [SmallSize] pointers sit in an inline array in insertion order; the next
    insertion moves them to a hashed table with quadratic probing, whose
    size is a power of two.  Nothing is ever erased by the pass, so there are
    no tombstones and [NumNonEmpty] is the number of elements.  Iteration is
    that of a default build (no reverse iteration). *)

(** [DenseMapInfo<void *>::getHashValue]: the pointer is cut to [unsigned]
    and hashed as [(p >> 4) ^ (p >> 9)]. *)
Definition DenseMapInfo_getHashValue (PtrVal : addr) : N :=
  let p := N.land PtrVal (N.ones 32) in
  N.lxor (N.shiftr p 4) (N.shiftr p 9).

Definition SmallSize : nat := 8.

Inductive SmallPtrSet :=
  | SmallStorage (SmallArray : list addr)
      (* isSmall(): the filled prefix of the inline array *)
  | BigStorage (CurArray : list (option addr)).
      (* the hashed buckets; [None] is the empty marker *)

Definition SmallPtrSet_empty : SmallPtrSet := SmallStorage [].

(** Iteration ([begin()] to [end()]): the inline array in order, or the
    buckets in order, skipping empty ones. *)
Definition elements_of (s : SmallPtrSet) : list addr :=
  match s with
  | SmallStorage SmallArray => SmallArray
  | BigStorage CurArray => omap id CurArray
  end.

Definition set_size (s : SmallPtrSet) : nat := length (elements_of s).

Definition CurArraySize (s : SmallPtrSet) : nat :=
  match s with
  | SmallStorage _ => SmallSize
  | BigStorage CurArray => length CurArray
  end.

(** [x & (ArraySize - 1)], a bucket index.  The C++ computes in [unsigned];
    [ArraySize] is a power of two that divides [2^32], so the wrap-around of
    [x] does not change the result. *)
Definition mask (x : N) (ArraySize : nat) : nat :=
  N.to_nat (N.land x (N.of_nat ArraySize - 1)).

(** ** Names of the runtime markers ([OMPRTL___kmpc_target_init] and
    [OMPRTL___kmpc_target_deinit] of [OMPKinds.def]) *)
Inductive RuntimeFunction :=
  | OMPRTL___kmpc_target_init
  | OMPRTL___kmpc_target_deinit.

#[global] Instance RuntimeFunction_eq_dec : EqDecision RuntimeFunction.
Proof. solve_decision. Defined.

Definition RuntimeFunction_name (FnID : RuntimeFunction) : string :=
  match FnID with
  | OMPRTL___kmpc_target_init => "__kmpc_target_init"
  | OMPRTL___kmpc_target_deinit => "__kmpc_target_deinit"
  end.

(** ** The state the pass runs in *)

(** What a run can be observed to do besides changing the module and writing
    to [outs()]: the calls of the resolver with their results, the
    classification queries with theirs, and the calls of [addFnAttr]. *)
Inductive Event :=
  | Resolved (FnID : RuntimeFunction) (callee : addr)
  | Classified (F : addr) (result : bool)
  | Annotated (F : addr).

Record State := mkState {
  st_module : Module;      (* the module, mutated in place *)
  st_outs : string;        (* what has been written to outs() *)
  st_log : list Event
}.

Definition PassM (A : Type) : Type := State → A * State.

Definition ret {A : Type} (a : A) : PassM A := λ st, (a, st).

Definition bind {A B : Type} (m : PassM A) (f : A → PassM B) : PassM B :=
  λ st, let '(a, st') := m st in f a st'.

Notation "'let*' x := m 'in' k" := (bind m (λ x, k))
  (at level 10, x name, m at level 100, k at level 200, only parsing).
Notation "m ;;; k" := (bind m (λ _, k))
  (at level 100, k at level 200, right associativity, only parsing).

Definition get_module : PassM Module := λ st, (st_module st, st).

Definition log_event (e : Event) : PassM unit :=
  λ st, (tt, {| st_module := st_module st;
                st_outs := st_outs st;
                st_log := st_log st ++ [e] |}).

Definition newline : string := String (Ascii.ascii_of_nat 10) EmptyString.

Inductive PreservedAnalyses := PreservedAnalyses_none | PreservedAnalyses_all.

(** ** Probe sequences *)

(** The [j]-th probe of [FindBucketFor] is [ProbeAmt = 1, 2, ...] added up:
    bucket [(h + 1 + 2 + ... + j) & (ArraySize - 1)]. *)
Fixpoint tri (j : nat) : nat :=
  match j with
  | O => 0
  | S j' => tri j' + S j'
  end.

Definition probe (ArraySize h j : nat) : nat := (h + tri j) mod ArraySize.

(** ** Example units *)

(** An allocator for the examples: new functions are placed above every
    function of the module.  Created declarations carry no attributes. *)
Definition next_addr (M : Module) : addr :=
  (16 + foldr N.max 0%N (F_addr <$> M_functions M))%N.

Definition no_attrs (_ : RuntimeFunction) : gmap string string := ∅.

Definition decl_init : Function :=
  mkFunction 0x100 "__kmpc_target_init" ∅ [].
Definition decl_deinit : Function :=
  mkFunction 0x200 "__kmpc_target_deinit" ∅ [].

Definition call_init : Instruction := Call (VFunc 0x100) [VLocal 0].
Definition call_deinit : Instruction := Call (VFunc 0x200) [].

(** [A] calls kernel-init and then kernel-deinit, [B] calls kernel-init
    only, [C] calls neither. *)
Definition fn_A : Function :=
  mkFunction 0x1000 "A" ∅ [[call_init; Op [VLocal 1]; call_deinit]].
Definition fn_B : Function :=
  mkFunction 0x2000 "B" ∅ [[call_init; Op [VLocal 1]]].
Definition fn_C : Function :=
  mkFunction 0x3000 "C" ∅ [[Op [VLocal 1]]].

Definition unit_ABC : Module :=
  {| M_functions := [fn_A; fn_B; fn_C; decl_init; decl_deinit];
     M_constants := [] |}.

(** [G] hands the addresses of both markers to another function:
    [call void @register_hooks(ptr @__kmpc_target_init,
    ptr @__kmpc_target_deinit)].  It calls neither marker. *)
Definition fn_G : Function :=
  mkFunction 0x1000 "G" ∅ [[Call (VFunc 0x4000) [VFunc 0x100; VFunc 0x200]]].

Definition unit_hooks : Module :=
  {| M_functions :=
       [fn_G; mkFunction 0x4000 "register_hooks" ∅ []; decl_init; decl_deinit];
     M_constants := [] |}.

(** [helper] brackets its body with both marker calls; [caller] only calls
    [helper]. *)
Definition fn_helper : Function :=
  mkFunction 0x2000 "helper" ∅ [[call_init; Op [VLocal 1]; call_deinit]].
Definition fn_caller : Function :=
  mkFunction 0x1000 "caller" ∅ [[Call (VFunc 0x2000) []]].

Definition unit_helper : Module :=
  {| M_functions := [fn_caller; fn_helper; decl_init; decl_deinit];
     M_constants := [] |}.

(** [storing_caller] calls [helper] too, and stores the addresses of the two
    markers without calling them. *)
Definition fn_storing_caller : Function :=
  mkFunction 0x1000 "storing_caller" ∅
    [[Op [VFunc 0x100; VLocal 0]; Op [VFunc 0x200; VLocal 1];
      Call (VFunc 0x2000) []]].

Definition unit_storing_caller : Module :=
  {| M_functions := [fn_storing_caller; fn_helper; decl_init; decl_deinit];
     M_constants := [] |}.

(** Two functions that use no marker, in a module that declares none. *)
Definition unit_two : Module :=
  {| M_functions := [mkFunction 0x1000 "f" ∅ [[Op [VLocal 0]]];
                     mkFunction 0x2000 "g" ∅ [[Op [VLocal 0]]]];
     M_constants := [] |}.

(** Nine kernel entries, stored from the highest address to the lowest. *)
Definition kernel_at (a : addr) (Name : string) : Function :=
  mkFunction a Name ∅ [[call_init; call_deinit]].

(** Eight kernel entries, as many as the inline array of the set holds,
    stored from the highest address to the lowest: the first eight
    functions of [unit_nine] below. *)
Definition unit_eight : Module :=
  {| M_functions :=
       [kernel_at 0x9000 "k1"; kernel_at 0x8000 "k2"; kernel_at 0x7000 "k3";
        kernel_at 0x6000 "k4"; kernel_at 0x5000 "k5"; kernel_at 0x4000 "k6";
        kernel_at 0x3000 "k7"; kernel_at 0x2000 "k8";
        decl_init; decl_deinit];
     M_constants := [] |}.

Definition unit_nine : Module :=
  {| M_functions :=
       [kernel_at 0x9000 "k1"; kernel_at 0x8000 "k2"; kernel_at 0x7000 "k3";
        kernel_at 0x6000 "k4"; kernel_at 0x5000 "k5"; kernel_at 0x4000 "k6";
        kernel_at 0x3000 "k7"; kernel_at 0x2000 "k8"; kernel_at 0x1000 "k9";
        decl_init; decl_deinit];
     M_constants := [] |}.

(** [caster] calls both markers, but through constant expressions that
    cast them: the users of the markers are the two casts. *)
Definition fn_caster : Function :=
  mkFunction 0x1000 "caster" ∅ [[Call (VConst 0) []; Call (VConst 1) []]].

Definition unit_cast : Module :=
  {| M_functions := [fn_caster; decl_init; decl_deinit];
     M_constants := [[VFunc 0x100]; [VFunc 0x200]] |}.

#[global] Instance Instruction_eq_dec : EqDecision Instruction.
Proof. solve_decision. Defined.

#[global] Instance Function_eq_dec : EqDecision Function.
Proof. solve_decision. Defined.

(** A module without functions whose constants mention a marker address,
    in a state in which a pass has run before. *)
Definition state_without_functions : State :=
  {| st_module := {| M_functions := []; M_constants := [[VFunc 0x100]] |};
     st_outs := "earlier output";
     st_log := [Annotated 0x1000] |}.

(** The functions of [unit_ABC] stored in another order. *)
Definition unit_CAB : Module :=
  {| M_functions := [decl_deinit; fn_C; fn_A; decl_init; fn_B];
     M_constants := [[VFunc 0x100]] |}.

(** [unit_ABC] with the bodies rearranged and attributes present: [A]
    calls kernel-deinit before kernel-init, in two blocks. *)
Definition fn_A_rearranged : Function :=
  mkFunction 0x1000 "A" {["noinline" := ""]}
    [[call_deinit]; [Op [VLocal 1]; call_init]].
Definition fn_B_rearranged : Function :=
  mkFunction 0x2000 "B" ∅ [[Op [VLocal 1]]; [call_init]].

Definition unit_ABC_rearranged : Module :=
  {| M_functions :=
       [fn_A_rearranged; fn_B_rearranged; fn_C; decl_init; decl_deinit];
     M_constants := [] |}.

Definition initial (M : Module) : State :=
  {| st_module := M; st_outs := ""; st_log := [] |}.

Section Pass.

(** The pointer hash of the set, and the attribute that the argument-less
    [F->addFnAttr()] of the source leaves open. *)
Variable getHashValue : addr → N.
Variable KernelAttrKind KernelAttrValue : string.

(** The probing loop of [FindBucketFor]: stop at the first bucket that is
    empty or holds [Ptr]; otherwise advance by [ProbeAmt++].  The C++ loop
    is a [while (true)]; [fuel] bounds the number of probes, and one probe
    per bucket is enough in a table with an empty bucket
    ([FindBucketFor_absent], [FindBucketFor_present]). *)
Fixpoint FindBucketFor_loop (fuel : nat) (Array : list (option addr))
    (Ptr : addr) (Bucket ProbeAmt : nat) : option nat :=
  match fuel with
  | O => None
  | S fuel' =>
    match Array !! Bucket with
    | Some None => Some Bucket
    | Some (Some q) =>
      if decide (q = Ptr) then Some Bucket
      else FindBucketFor_loop fuel' Array Ptr
             (mask (N.of_nat (Bucket + ProbeAmt)) (length Array)) (S ProbeAmt)
    | None => None
    end
  end.

Definition FindBucketFor (Array : list (option addr)) (Ptr : addr)
  : option nat :=
  FindBucketFor_loop (length Array) Array Ptr
    (mask (getHashValue Ptr) (length Array)) 1.

(** [*FindBucketFor(Elt) = Elt].  The last case is that of a probing loop
    out of fuel, which [store_bucket_absent] and [store_bucket_present]
    exclude. *)
Definition store_bucket (Array : list (option addr)) (Elt : addr)
  : list (option addr) :=
  match FindBucketFor Array Elt with
  | Some Bucket => <[Bucket := Some Elt]> Array
  | None => Array
  end.

(** [Grow(NewSize)]: a fresh table of empty buckets, into which every
    element of the old array is re-inserted in the old array's order. *)
Definition Grow (s : SmallPtrSet) (NewSize : nat) : SmallPtrSet :=
  BigStorage (foldl store_bucket (replicate NewSize None) (elements_of s)).

(** [insert_imp_big]: grow when the table is three quarters full (the full
    inline array always is), rehash when fewer than an eighth of the buckets
    are empty, then store.  [insert_imp] only comes here with a full inline
    array or a hashed table, so that the table is hashed when it is stored
    into. *)
Definition insert_imp_big (Ptr : addr) (s : SmallPtrSet) : SmallPtrSet :=
  let s1 :=
    if decide (CurArraySize s * 3 ≤ set_size s * 4)
    then Grow s (if decide (CurArraySize s < 64) then 128 else CurArraySize s * 2)
    else if decide (CurArraySize s - set_size s < CurArraySize s / 8)
    then Grow s (CurArraySize s)
    else s in
  match s1 with
  | BigStorage CurArray => BigStorage (store_bucket CurArray Ptr)
  | SmallStorage _ => s1
  end.

Definition insert_imp (Ptr : addr) (s : SmallPtrSet) : SmallPtrSet :=
  match s with
  | SmallStorage SmallArray =>
    if decide (Ptr ∈ SmallArray) then s
    else if decide (length SmallArray < SmallSize)
    then SmallStorage (SmallArray ++ [Ptr])
    else insert_imp_big Ptr s
  | BigStorage _ => insert_imp_big Ptr s
  end.

(** The set after inserting the pointers of [Fs], first to last. *)
Definition inserted (Fs : list addr) : SmallPtrSet :=
  foldl (λ s F, insert_imp F s) SmallPtrSet_empty Fs.

(** ** The OpenMP runtime markers and their resolver *)

(** Modelled from the spec: [OpenMPIRBuilder::getOrCreateRuntimeFunction]
    is LLVM's and is consumed through its contract only (the spec's
    RuntimeMarkerResolver): it returns the declaration of the named runtime
    function, creating one at the end of the module's function list when
    the module has none; a repeated call returns the same declaration.
    [allocate] gives the address of a newly created function and
    [RuntimeFunctionAttrs] the attributes it is created with. *)
Variable allocate : Module → addr.
Variable RuntimeFunctionAttrs : RuntimeFunction → gmap string string.

Definition getFunction (M : Module) (Name : string) : option Function :=
  head (filter (λ F, F_name F = Name) (M_functions M)).

Definition createFunction (M : Module) (FnID : RuntimeFunction) : Function :=
  {| F_addr := allocate M;
     F_name := RuntimeFunction_name FnID;
     F_attrs := RuntimeFunctionAttrs FnID;
     F_blocks := [] |}.

Definition getOrCreateRuntimeFunction (M : Module) (FnID : RuntimeFunction)
  : Module * addr :=
  match getFunction M (RuntimeFunction_name FnID) with
  | Some Fn => (M, F_addr Fn)
  | None =>
    let Fn := createFunction M FnID in
    ({| M_functions := M_functions M ++ [Fn];
        M_constants := M_constants M |}, F_addr Fn)
  end.

(** ** The pass *)

Definition resolve (FnID : RuntimeFunction) : PassM addr :=
  λ st,
    let '(M, callee) := getOrCreateRuntimeFunction (st_module st) FnID in
    (callee, {| st_module := M;
                st_outs := st_outs st;
                st_log := st_log st ++ [Resolved FnID callee] |}).

(** One of the two [for (Use &U : ...->uses())] loops of [IsKernelEntry]:
    the flag becomes true, and the loop breaks, at the first use whose user
    is an instruction of the function at [F]. *)
Fixpoint scan_uses (us : list Use) (F : addr) : bool :=
  match us with
  | [] => false
  | U :: rest =>
    match dyn_cast_Instruction (getUser U) with
    | Some parent =>
      if decide (parent = Some F) then true else scan_uses rest F
    | None => scan_uses rest F
    end
  end.

(** The lambda [IsKernelEntry]: both markers are resolved inside the
    lambda, on every call. *)
Definition IsKernelEntry (F : addr) : PassM bool :=
  let* KernelInit := resolve OMPRTL___kmpc_target_init in
  let* KernelDeinit := resolve OMPRTL___kmpc_target_deinit in
  let* M := get_module in
  let CallsTargetInit := scan_uses (uses M KernelInit) F in
  let CallsTargetDeinit := scan_uses (uses M KernelDeinit) F in
  let result := CallsTargetInit && CallsTargetDeinit in
  log_event (Classified F result) ;;;
  ret result.

(** [for (Function &F : M) if (IsKernelEntry(F)) KernelEntryFunctions.insert(&F);]
    The iterator walks the module's function list while [IsKernelEntry] may
    append to it, so the loop is an index into the current list; [fuel]
    bounds the number of iterations, and [scan_fuel] is enough
    ([scan_functions_spec]). *)
Fixpoint scan_functions (fuel i : nat) (KernelEntryFunctions : SmallPtrSet)
  : PassM (option SmallPtrSet) :=
  match fuel with
  | O => ret None
  | S fuel' =>
    let* M := get_module in
    match M_functions M !! i with
    | None => ret (Some KernelEntryFunctions)
    | Some F =>
      let* b := IsKernelEntry (F_addr F) in
      scan_functions fuel' (S i)
        (if b then insert_imp (F_addr F) KernelEntryFunctions
         else KernelEntryFunctions)
    end
  end.

(** [F->getName()] and [F->addFnAttr()] through the pointer [F]. *)
Definition getName (M : Module) (F : addr) : string :=
  default "" (F_name <$> head (filter (λ Fn, F_addr Fn = F) (M_functions M))).

Definition addFnAttr_to (Fn : Function) : Function :=
  {| F_addr := F_addr Fn;
     F_name := F_name Fn;
     F_attrs := <[KernelAttrKind := KernelAttrValue]> (F_attrs Fn);
     F_blocks := F_blocks Fn |}.

Definition addFnAttr (M : Module) (F : addr) : Module :=
  {| M_functions :=
       (λ Fn, if decide (F_addr Fn = F) then addFnAttr_to Fn else Fn)
         <$> M_functions M;
     M_constants := M_constants M |}.

Definition diagnostic (Name : string) : string :=
  "Kernel entry function " +:+ Name +:+ newline.

(** The body of [for (Function *F : KernelEntryFunctions)]. *)
Definition annotate (F : addr) : PassM unit :=
  λ st,
    (tt, {| st_module := addFnAttr (st_module st) F;
            st_outs := st_outs st +:+ diagnostic (getName (st_module st) F);
            st_log := st_log st ++ [Annotated F] |}).

Fixpoint annotate_all (Fs : list addr) : PassM unit :=
  match Fs with
  | [] => ret tt
  | F :: rest => annotate F ;;; annotate_all rest
  end.

(** An upper bound on the iterations of the scan: the functions of the
    module, the two declarations that may be created, and the final test. *)
Definition scan_fuel (M : Module) : nat := length (M_functions M) + 3.

(** [visitor(M)].  The set is returned next to the state so that it can be
    observed; it is local to the call. *)
Definition visitor : PassM (option SmallPtrSet) :=
  let* M := get_module in
  let* r := scan_functions (scan_fuel M) 0 SmallPtrSet_empty in
  match r with
  | None => ret None
  | Some KernelEntryFunctions =>
    annotate_all (elements_of KernelEntryFunctions) ;;;
    ret (Some KernelEntryFunctions)
  end.

(** ** The two adapters *)

(** [AMDGPUAttributePass::run]: [PreservedAnalyses::none()]. *)
Definition run : PassM (option (SmallPtrSet * PreservedAnalyses)) :=
  let* r := visitor in
  ret ((λ KES, (KES, PreservedAnalyses_none)) <$> r).

(** [LegacyAMDGPUAttributePass::runOnModule]: [return true]. *)
Definition runOnModule : PassM (option (SmallPtrSet * bool)) :=
  let* r := visitor in
  ret ((λ KES, (KES, true)) <$> r).

(** ** What a run computes *)

(** The module once both markers have been resolved, and the two resolved
    declarations. *)
Definition resolved (M : Module) : Module :=
  (getOrCreateRuntimeFunction
     (getOrCreateRuntimeFunction M OMPRTL___kmpc_target_init).1
     OMPRTL___kmpc_target_deinit).1.

Definition KernelInit_of (M : Module) : addr :=
  (getOrCreateRuntimeFunction M OMPRTL___kmpc_target_init).2.

Definition KernelDeinit_of (M : Module) : addr :=
  (getOrCreateRuntimeFunction
     (getOrCreateRuntimeFunction M OMPRTL___kmpc_target_init).1
     OMPRTL___kmpc_target_deinit).2.

(** The module the scan ends with: the resolver only runs inside a
    classification query, so a module without functions is left alone. *)
Definition scanned (M : Module) : Module :=
  match M_functions M with
  | [] => M
  | _ :: _ => resolved M
  end.

(** The result of one classification query in a module whose markers are
    resolved. *)
Definition classify (M : Module) (F : addr) : bool :=
  scan_uses (uses M (KernelInit_of M)) F
  && scan_uses (uses M (KernelDeinit_of M)) F.

Definition query_events (M : Module) (F : addr) : list Event :=
  [Resolved OMPRTL___kmpc_target_init (KernelInit_of M);
   Resolved OMPRTL___kmpc_target_deinit (KernelDeinit_of M);
   Classified F (classify M F)].

(** The addresses the scan inserts into the set, in module order. *)
Definition kernel_entries (M : Module) : list addr :=
  filter (λ F, classify M F = true) (F_addr <$> M_functions M).

(** The module and the text written once every function of [Fs] has been
    printed and annotated. *)
Definition annotated (M : Module) (Fs : list addr) : Module :=
  {| M_functions :=
       (λ Fn, if decide (F_addr Fn ∈ Fs) then addFnAttr_to Fn else Fn)
         <$> M_functions M;
     M_constants := M_constants M |}.

Definition diagnostics (M : Module) (Fs : list addr) : string :=
  foldr (λ F text, diagnostic (getName M F) +:+ text) "" Fs.

(** The state a run of [visitor] ends in. *)
Definition visited (st : State) : State :=
  let M := scanned (st_module st) in
  let KernelEntryFunctions := elements_of (inserted (kernel_entries M)) in
  {| st_module := annotated M KernelEntryFunctions;
     st_outs := st_outs st +:+ diagnostics M KernelEntryFunctions;
     st_log := st_log st
               ++ ((F_addr <$> M_functions M) ≫= query_events M)
               ++ (Annotated <$> KernelEntryFunctions) |}.

(** The number of times [FnID] was resolved according to a log. *)
Definition is_resolution (FnID : RuntimeFunction) (e : Event) : bool :=
  match e with
  | Resolved FnID' _ => bool_decide (FnID' = FnID)
  | _ => false
  end.

Definition resolutions (FnID : RuntimeFunction) (log : list Event) : nat :=
  length (filter (λ e, is_resolution FnID e = true) log).

(** What the body of a function says about a function at address [a]: it
    holds a direct call to it, or it holds an instruction with a reference to
    it among its operands. *)
Definition is_direct_call_to (a : addr) (I : Instruction) : bool :=
  match I with
  | Call (VFunc c) _ => bool_decide (c = a)
  | _ => false
  end.

Definition has_direct_call (Fn : Function) (a : addr) : bool :=
  existsb (is_direct_call_to a) (concat (F_blocks Fn)).

Definition references (Fn : Function) (a : addr) : bool :=
  existsb (λ I, bool_decide (VFunc a ∈ getOperands I)) (concat (F_blocks Fn)).

(** ** Notions used to describe a run *)

(** The markers that a module does not declare, in the order in which
    [IsKernelEntry] asks for them. *)
Definition declares (M : Module) (FnID : RuntimeFunction) : bool :=
  bool_decide (is_Some (getFunction M (RuntimeFunction_name FnID))).

Definition missing (M : Module) : list RuntimeFunction :=
  filter (λ FnID, declares M FnID = false)
    [OMPRTL___kmpc_target_init; OMPRTL___kmpc_target_deinit].

(** Exactly one function of the module bears the name of the marker. *)
Definition declared_once (M : Module) (FnID : RuntimeFunction) : Prop :=
  ∃ Fn, filter (λ F, F_name F = RuntimeFunction_name FnID) (M_functions M)
        = [Fn].

(** Two functions that are the same object, with the same name and the same
    instructions, possibly arranged differently in the body and with
    different attributes. *)
Definition same_instructions (Fn Fn' : Function) : Prop :=
  F_addr Fn = F_addr Fn'
  ∧ F_name Fn = F_name Fn'
  ∧ concat (F_blocks Fn) ≡ₚ concat (F_blocks Fn').

(** The instructions of the module refer to functions of the module only:
    no operand holds the address of a function that the module does not
    have. *)
Definition refers_inside (M : Module) (v : Value) : bool :=
  match v with
  | VFunc a => bool_decide (a ∈ F_addr <$> M_functions M)
  | _ => true
  end.

Definition closed (M : Module) : bool :=
  forallb (λ Fn, forallb (λ I, forallb (refers_inside M) (getOperands I))
                   (concat (F_blocks Fn)))
    (M_functions M).

(** The functions of a module that hold a use of both resolved markers. *)
Definition uses_both_markers (M : Module) (Fn : Function) : Prop :=
  references Fn (KernelInit_of M) && references Fn (KernelDeinit_of M) = true.

#[global] Instance uses_both_markers_dec (M : Module) (Fn : Function) :
  Decision (uses_both_markers M Fn).
Proof. unfold uses_both_markers. apply _. Defined.

(** ** Invariants of the pointer set *)

(** The start bucket of [Ptr]'s probe sequence in a table of [n] buckets is
    [probe n (hash_of Ptr) 0]. *)
Definition hash_of (Ptr : addr) : nat := N.to_nat (getHashValue Ptr).

(** Bucket [i] is where the probing for [Ptr] arrives before it meets an
    empty bucket or [Ptr] itself. *)
Definition reachable (Array : list (option addr)) (Ptr : addr) (i : nat)
  : Prop :=
  ∃ j, j < length Array
       ∧ probe (length Array) (hash_of Ptr) j = i
       ∧ ∀ j', j' < j →
           ∃ q, Array !! probe (length Array) (hash_of Ptr) j' = Some (Some q)
                ∧ q ≠ Ptr.

Definition table_inv (Array : list (option addr)) : Prop :=
  (∃ k, 7 ≤ k ∧ length Array = 2 ^ k)
  ∧ NoDup (omap id Array)
  ∧ ∀ i q, Array !! i = Some (Some q) → reachable Array q i.

Definition SmallPtrSet_wf (s : SmallPtrSet) : Prop :=
  match s with
  | SmallStorage SmallArray =>
    NoDup SmallArray ∧ length SmallArray ≤ SmallSize
  | BigStorage CurArray =>
    table_inv CurArray ∧ length (omap id CurArray) < length CurArray
  end.

(** * Properties *)

(** ** Probing *)

Lemma mask_pow2 x k : mask x (2 ^ k) = N.to_nat x mod 2 ^ k.
Proof.
  unfold mask.
  rewrite Nat2N.inj_pow, N.sub_1_r, <- N.ones_equiv, N.land_ones.
  change 2%N with (N.of_nat 2). rewrite <- Nat2N.inj_pow.
  by rewrite N2Nat.inj_mod, Nat2N.id.
Qed.

Lemma tri_double j : 2 * tri j = j * (j + 1).
Proof. induction j as [|j IH]; simpl; [done | nia]. Qed.

Lemma tri_mono i j : i ≤ j → tri i ≤ tri j.
Proof. induction 1; simpl; lia. Qed.

Lemma pow2_divide_odd m a b :
  Nat.Odd a → Nat.divide (2 ^ m) (a * b) → Nat.divide (2 ^ m) b.
Proof.
  intros [a' ->]. revert b. induction m as [|m IH]; intros b [c Hc].
  - exists b. simpl. lia.
  - destruct (Nat.Even_or_Odd b) as [[b' ->]|[b' ->]].
    + destruct (IH b') as [d Hd].
      { exists c. rewrite Nat.pow_succ_r' in Hc. nia. }
      exists d. rewrite Nat.pow_succ_r'. lia.
    + rewrite Nat.pow_succ_r' in Hc. exfalso. nia.
Qed.

Lemma mod_eq_divide n a b :
  n ≠ 0 → a ≤ b → a mod n = b mod n → Nat.divide n (b - a).
Proof.
  intros Hn Hab Heq.
  pose proof (Nat.div_mod_eq a n). pose proof (Nat.div_mod_eq b n).
  assert (a / n ≤ b / n) by (apply Nat.Div0.div_le_mono; lia).
  exists (b / n - a / n). nia.
Qed.

(** Triangular numbers are pairwise distinct modulo a power of two: the
    probe sequence visits every bucket before it repeats. *)
Lemma probe_inj k h i j :
  i < j → j < 2 ^ k → probe (2 ^ k) h i ≠ probe (2 ^ k) h j.
Proof.
  intros Hij Hj Heq. unfold probe in Heq.
  assert (Hpos : 2 ^ k ≠ 0) by (apply Nat.pow_nonzero; lia).
  pose proof (tri_mono i j ltac:(lia)) as Hmono.
  apply mod_eq_divide in Heq; [|done|lia].
  replace (h + tri j - (h + tri i)) with (tri j - tri i) in Heq by lia.
  assert (Hdiv : Nat.divide (2 ^ S k) ((j - i) * (j + i + 1))).
  { destruct Heq as [c Hc]. exists c. rewrite Nat.pow_succ_r'.
    pose proof (tri_double i). pose proof (tri_double j). nia. }
  destruct (Nat.Even_or_Odd (j - i)) as [Hev|Hodd].
  - assert (Hodd : Nat.Odd (j + i + 1)).
    { destruct Hev as [c Hc]. exists (c + i). lia. }
    rewrite Nat.mul_comm in Hdiv. apply pow2_divide_odd in Hdiv; [|done].
    apply Nat.divide_pos_le in Hdiv; [|lia].
    rewrite Nat.pow_succ_r' in Hdiv. lia.
  - apply pow2_divide_odd in Hdiv; [|done].
    apply Nat.divide_pos_le in Hdiv; [|lia].
    rewrite Nat.pow_succ_r' in Hdiv. lia.
Qed.

Lemma probe_lt n h j : n ≠ 0 → probe n h j < n.
Proof. intros. unfold probe. by apply Nat.mod_upper_bound. Qed.

Lemma probe_surj k h t :
  t < 2 ^ k → ∃ j, j < 2 ^ k ∧ probe (2 ^ k) h j = t.
Proof.
  intros Ht.
  assert (Hpos : 2 ^ k ≠ 0) by (apply Nat.pow_nonzero; lia).
  assert (Hnd : NoDup (probe (2 ^ k) h <$> seq 0 (2 ^ k))).
  { apply NoDup_fmap_2_strong; [|apply NoDup_seq].
    intros i j Hi%elem_of_seq Hj%elem_of_seq Heq.
    destruct (Nat.lt_trichotomy i j) as [Hlt|[->|Hlt]]; [|done|].
    - exfalso. eapply (probe_inj k h i j); [lia..|done].
    - exfalso. eapply (probe_inj k h j i); [lia..|done]. }
  assert (Hin : t ∈ probe (2 ^ k) h <$> seq 0 (2 ^ k)).
  { assert (Hsub : probe (2 ^ k) h <$> seq 0 (2 ^ k) ⊆+ seq 0 (2 ^ k)).
    { apply NoDup_submseteq; [done|].
      intros x (j & -> & _)%list_elem_of_fmap. apply elem_of_seq.
      pose proof (probe_lt (2 ^ k) h j Hpos). lia. }
    apply submseteq_length_Permutation in Hsub;
      [|by rewrite length_fmap].
    rewrite Hsub. apply elem_of_seq. lia. }
  apply list_elem_of_fmap in Hin as (j & -> & Hj%elem_of_seq).
  exists j. split; [lia|done].
Qed.

(** ** The hashed table *)

Lemma probe_next k h j :
  mask (N.of_nat (probe (2 ^ k) h j + S j)) (2 ^ k) = probe (2 ^ k) h (S j).
Proof.
  rewrite mask_pow2, Nat2N.id. unfold probe. simpl tri.
  rewrite Nat.Div0.add_mod_idemp_l. f_equal. lia.
Qed.

Lemma probe_zero k h : mask h (2 ^ k) = probe (2 ^ k) (N.to_nat h) 0.
Proof. rewrite mask_pow2. unfold probe. simpl. by rewrite Nat.add_0_r. Qed.

(** The loop stops at the first probe that is empty or holds the pointer. *)
Lemma FindBucketFor_loop_stops (A : list (option addr)) p k h m :
  length A = 2 ^ k →
  ∀ fuel j,
    (∀ j', j ≤ j' < j + m →
       ∃ q, A !! probe (2 ^ k) h j' = Some (Some q) ∧ q ≠ p) →
    (A !! probe (2 ^ k) h (j + m) = Some None
     ∨ A !! probe (2 ^ k) h (j + m) = Some (Some p)) →
    m < fuel →
    FindBucketFor_loop fuel A p (probe (2 ^ k) h j) (S j)
    = Some (probe (2 ^ k) h (j + m)).
Proof.
  intros Hlen. induction m as [|m IH]; intros fuel j Hbusy Hstop Hfuel;
    (destruct fuel as [|fuel]; [lia|]); simpl.
  - rewrite Nat.add_0_r in Hstop. destruct Hstop as [->| ->].
    + by rewrite Nat.add_0_r.
    + rewrite decide_True by done. by rewrite Nat.add_0_r.
  - destruct (Hbusy j ltac:(lia)) as (q & -> & Hq).
    rewrite decide_False by done. rewrite Hlen, probe_next.
    replace (j + S m) with (S j + m) by lia.
    apply IH; [|by replace (S j + m) with (j + S m) by lia|lia].
    intros j' Hj'. apply Hbusy. lia.
Qed.

Lemma FindBucketFor_reachable (A : list (option addr)) p i :
  (∃ k, length A = 2 ^ k) →
  reachable A p i →
  (A !! i = Some None ∨ A !! i = Some (Some p)) →
  FindBucketFor A p = Some i.
Proof.
  intros [k Hlen] (j & Hj & <- & Hbusy) Hstop. unfold FindBucketFor.
  rewrite Hlen in *. rewrite probe_zero. fold (hash_of p).
  apply (FindBucketFor_loop_stops A p k (hash_of p) j Hlen (2 ^ k) 0);
    [|done|done].
  intros j' Hj'. apply Hbusy. lia.
Qed.

Lemma empty_bucket_exists (A : list (option addr)) :
  length (omap id A) < length A → ∃ e, A !! e = Some None.
Proof.
  induction A as [|[q|] A IH]; cbn; intros Hlt.
  - lia.
  - destruct IH as [e He]; [lia|]. by exists (S e).
  - by exists 0.
Qed.

Lemma elem_of_buckets (A : list (option addr)) p :
  p ∈ omap id A ↔ ∃ i, A !! i = Some (Some p).
Proof.
  rewrite list_elem_of_omap. split.
  - intros (x & Hx & Hid). simpl in Hid. subst x.
    by apply list_elem_of_lookup in Hx.
  - intros [i Hi]. exists (Some p). split; [|done].
    apply list_elem_of_lookup. by exists i.
Qed.

(** Along any probe sequence of a table with an empty bucket there is a
    first empty bucket. *)
Lemma first_empty_probe (A : list (option addr)) k h :
  length A = 2 ^ k →
  ∀ m, (∀ j', j' < m → ∃ q, A !! probe (2 ^ k) h j' = Some (Some q))
       ∨ (∃ m', m' < m ∧ A !! probe (2 ^ k) h m' = Some None
                ∧ ∀ j', j' < m' → ∃ q, A !! probe (2 ^ k) h j' = Some (Some q)).
Proof.
  intros Hlen. induction m as [|m [IH|IH]].
  - left. intros j' Hj'. lia.
  - assert (Hpos : 2 ^ k ≠ 0) by (apply Nat.pow_nonzero; lia).
    destruct (lookup_lt_is_Some_2 A (probe (2 ^ k) h m)) as [[q|] Hq].
    { rewrite Hlen. by apply probe_lt. }
    + left. intros j' Hj'. destruct (decide (j' = m)) as [->|]; [eauto|].
      apply IH. lia.
    + right. exists m. eauto.
  - right. destruct IH as (m' & ? & ? & ?). exists m'. split; [lia|done].
Qed.

Lemma FindBucketFor_absent (A : list (option addr)) p :
  table_inv A → length (omap id A) < length A → p ∉ omap id A →
  ∃ i, FindBucketFor A p = Some i ∧ A !! i = Some None ∧ reachable A p i.
Proof.
  intros ((k & Hk & Hlen) & Hnd & Hreach) Hsize Hp.
  destruct (empty_bucket_exists A Hsize) as [e He].
  destruct (probe_surj k (hash_of p) e) as (je & Hje & Hpe).
  { rewrite <- Hlen. by eapply lookup_lt_Some. }
  assert (Hfirst : ∃ m, m < 2 ^ k ∧ A !! probe (2 ^ k) (hash_of p) m = Some None
            ∧ ∀ j', j' < m →
                ∃ q, A !! probe (2 ^ k) (hash_of p) j' = Some (Some q)).
  { destruct (first_empty_probe A k (hash_of p) Hlen (S je))
      as [Hbusy|(m & Hm & Hem & Hbusy)].
    - destruct (Hbusy je ltac:(lia)) as [q Hq]. congruence.
    - exists m. split; [lia|done]. }
  destruct Hfirst as (m & Hm & Hem & Hbusy).
  assert (Hr : reachable A p (probe (2 ^ k) (hash_of p) m)).
  { exists m. rewrite Hlen. split; [done|]. split; [done|].
    intros j' Hj'. destruct (Hbusy j' Hj') as [q Hq]. exists q.
    split; [done|]. intros ->. apply Hp, elem_of_buckets. eauto. }
  exists (probe (2 ^ k) (hash_of p) m). split; [|done].
  apply FindBucketFor_reachable; eauto.
Qed.

Lemma FindBucketFor_present (A : list (option addr)) p :
  table_inv A → p ∈ omap id A →
  ∃ i, FindBucketFor A p = Some i ∧ A !! i = Some (Some p).
Proof.
  intros ((k & Hk & Hlen) & Hnd & Hreach) [i Hi]%elem_of_buckets.
  exists i. split; [|done].
  apply FindBucketFor_reachable; eauto.
Qed.

Lemma omap_insert_empty (A : list (option addr)) i p :
  A !! i = Some None → omap id (<[i := Some p]> A) ≡ₚ p :: omap id A.
Proof.
  intros Hi. pose proof (lookup_lt_Some _ _ _ Hi) as Hlt.
  rewrite insert_take_drop by done.
  rewrite <- (take_drop_middle A i None Hi) at 3.
  rewrite !omap_app. cbn. by rewrite Permutation_middle.
Qed.

Lemma reachable_insert (A : list (option addr)) q i0 i p :
  A !! i = Some None → reachable A q i0 → reachable (<[i := Some p]> A) q i0.
Proof.
  intros Hi (j & Hj & Hij & Hbusy). exists j. rewrite length_insert.
  split; [done|]. split; [done|]. intros j' Hj'.
  destruct (Hbusy j' Hj') as (q' & Hq' & Hne). exists q'. split; [|done].
  rewrite list_lookup_insert_ne; [done|]. intros Heq. congruence.
Qed.

Lemma store_bucket_present (A : list (option addr)) p :
  table_inv A → p ∈ omap id A → store_bucket A p = A.
Proof.
  intros Hinv Hp. unfold store_bucket.
  destruct (FindBucketFor_present A p Hinv Hp) as (i & -> & Hi).
  by apply list_insert_id.
Qed.

Lemma store_bucket_absent (A : list (option addr)) p :
  table_inv A → length (omap id A) < length A → p ∉ omap id A →
  table_inv (store_bucket A p)
  ∧ omap id (store_bucket A p) ≡ₚ p :: omap id A
  ∧ length (store_bucket A p) = length A.
Proof.
  intros Hinv Hsize Hp. unfold store_bucket.
  destruct (FindBucketFor_absent A p Hinv Hsize Hp) as (i & -> & Hi & Hr).
  destruct Hinv as (Hpow & Hnd & Hreach).
  pose proof (omap_insert_empty A i p Hi) as Hperm.
  split; [|by rewrite length_insert]. split; [by rewrite length_insert|].
  split.
  - rewrite Hperm. by apply NoDup_cons.
  - intros i0 q Hq. destruct (decide (i0 = i)) as [->|Hne].
    + rewrite list_lookup_insert_eq in Hq by by eapply lookup_lt_Some.
      injection Hq as <-. by apply reachable_insert.
    + rewrite list_lookup_insert_ne in Hq by done.
      apply reachable_insert; [done|]. by apply Hreach.
Qed.

Lemma replicate_table_inv k :
  7 ≤ k → table_inv (replicate (2 ^ k) (None : option addr)).
Proof.
  intros Hk.
  assert (Hnil : ∀ n, omap id (replicate n (None : option addr)) = [])
    by (induction n; done).
  split; [exists k; by rewrite length_replicate|]. split.
  - rewrite Hnil. constructor.
  - intros i q [Hq _]%lookup_replicate. done.
Qed.

Lemma omap_replicate_None n : omap id (replicate n (None : option addr)) = [].
Proof. induction n; done. Qed.

(** Re-inserting distinct pointers into a table with room for them. *)
Lemma foldl_store_bucket (l : list addr) :
  ∀ A : list (option addr),
    table_inv A → NoDup l → (∀ x, x ∈ l → x ∉ omap id A) →
    length (omap id A) + length l ≤ length A →
    table_inv (foldl store_bucket A l)
    ∧ omap id (foldl store_bucket A l) ≡ₚ l ++ omap id A
    ∧ length (foldl store_bucket A l) = length A.
Proof.
  induction l as [|x l IH]; intros A Hinv Hnd Hfresh Hroom; simpl.
  - done.
  - apply NoDup_cons in Hnd as [Hx Hnd]. simpl in Hroom.
    destruct (store_bucket_absent A x Hinv) as (Hinv' & Hperm & Hlen);
      [lia|apply Hfresh; left|].
    destruct (IH (store_bucket A x)) as (Hinv'' & Hperm' & Hlen');
      [done|done| | |].
    + intros y Hy. rewrite Hperm. intros [->|Hin]%elem_of_cons; [done|].
      by apply (Hfresh y); [right|].
    + rewrite Hlen, Hperm. simpl. lia.
    + split; [done|]. split; [|congruence].
      rewrite Hperm', Hperm. by rewrite Permutation_middle.
Qed.

Lemma Grow_spec (s : SmallPtrSet) k :
  7 ≤ k → NoDup (elements_of s) → length (elements_of s) ≤ 2 ^ k →
  ∃ A, Grow s (2 ^ k) = BigStorage A
       ∧ table_inv A
       ∧ omap id A ≡ₚ elements_of s
       ∧ length A = 2 ^ k.
Proof.
  intros Hk Hnd Hroom. eexists. split; [done|].
  destruct (foldl_store_bucket (elements_of s)
              (replicate (2 ^ k) None)) as (Hinv & Hperm & Hlen).
  - by apply replicate_table_inv.
  - done.
  - intros x _. rewrite omap_replicate_None. apply not_elem_of_nil.
  - rewrite omap_replicate_None, length_replicate. simpl. lia.
  - split; [done|]. rewrite omap_replicate_None, app_nil_r in Hperm.
    split; [done|]. by rewrite Hlen, length_replicate.
Qed.

Lemma SmallPtrSet_wf_NoDup (s : SmallPtrSet) :
  SmallPtrSet_wf s → NoDup (elements_of s).
Proof. destruct s; simpl; [tauto|]. by intros [(_ & ? & _) _]. Qed.

(** The table that [insert_imp_big] looks the pointer up in: a table with
    the same elements and room for one more. *)
Lemma insert_imp_big_table (p : addr) (s : SmallPtrSet) :
  SmallPtrSet_wf s →
  (match s with SmallStorage l => length l = SmallSize | _ => True end) →
  ∃ A, insert_imp_big p s = BigStorage (store_bucket A p)
       ∧ table_inv A
       ∧ omap id A ≡ₚ elements_of s
       ∧ length (omap id A) + 1 < length A.
Proof.
  intros Hwf Hfull. pose proof (SmallPtrSet_wf_NoDup s Hwf) as Hnd.
  unfold insert_imp_big, set_size. destruct s as [l|A]; cbn [CurArraySize elements_of] in *.
  - destruct (Grow_spec (SmallStorage l) 7) as (A & HA & Hinv & Hperm & Hlen);
      [lia|done|cbn [elements_of]; rewrite Hfull; unfold SmallSize; simpl; lia|].
    change (2 ^ 7) with 128 in HA.
    rewrite decide_True by (rewrite Hfull; lia).
    rewrite decide_True by (unfold SmallSize; lia).
    rewrite HA.
    exists A. split; [done|]. split; [done|]. split; [done|].
    rewrite Hperm, Hlen. cbn [elements_of]. rewrite Hfull. unfold SmallSize. simpl. lia.
  - destruct Hwf as [Hinv Hsize]. pose proof Hinv as ((k & Hk & Hlen) & _).
    assert (128 ≤ length A).
    { rewrite Hlen. change 128 with (2 ^ 7). by apply Nat.pow_le_mono_r. }
    case_decide as Hfill.
    + rewrite decide_False by lia.
      destruct (Grow_spec (BigStorage A) (S k)) as (A' & HA & Hinv' & Hperm & Hlen');
        [lia|done|cbn [elements_of]; rewrite Nat.pow_succ_r'; lia|].
      replace (length A * 2) with (2 ^ S k) by (rewrite Nat.pow_succ_r'; lia).
      rewrite HA. exists A'. split; [done|]. split; [done|]. split; [done|].
      rewrite Hperm, Hlen'. cbn [elements_of]. rewrite Nat.pow_succ_r'. lia.
    + case_decide as Hsparse.
      * destruct (Grow_spec (BigStorage A) k) as (A' & HA & Hinv' & Hperm & Hlen');
          [lia|done|cbn [elements_of]; lia|].
        rewrite Hlen, HA. exists A'. split; [done|]. split; [done|].
        split; [done|]. rewrite Hperm, Hlen'. cbn [elements_of]. lia.
      * exists A. split; [done|]. split; [done|]. split; [done|]. lia.
Qed.

(** Insertion keeps the set well formed and adds exactly the pointer. *)
Lemma insert_imp_spec (p : addr) (s : SmallPtrSet) :
  SmallPtrSet_wf s →
  SmallPtrSet_wf (insert_imp p s)
  ∧ ∀ x, x ∈ elements_of (insert_imp p s) ↔ x = p ∨ x ∈ elements_of s.
Proof.
  intros Hwf.
  assert (Hbig :
    (match s with SmallStorage l => length l = SmallSize | _ => True end) →
    SmallPtrSet_wf (insert_imp_big p s)
    ∧ ∀ x, x ∈ elements_of (insert_imp_big p s) ↔ x = p ∨ x ∈ elements_of s).
  { intros Hfull.
    destruct (insert_imp_big_table p s Hwf Hfull) as (A & -> & Hinv & Hperm & Hroom).
    simpl. destruct (decide (p ∈ omap id A)) as [Hin|Hout].
    - rewrite store_bucket_present by done. split; [split; [done|lia]|].
      intros x. rewrite Hperm. rewrite Hperm in Hin.
      split; [tauto|]. by intros [->|].
    - destruct (store_bucket_absent A p Hinv) as (Hinv' & Hperm' & Hlen');
        [lia|done|].
      split; [split; [done|]|].
      + rewrite Hperm', Hlen'. simpl. lia.
      + intros x. rewrite Hperm', <- Hperm. by rewrite elem_of_cons. }
  destruct s as [l|A]; simpl; [|by apply Hbig].
  destruct Hwf as [Hnd Hlen]. case_decide as Hin.
  - split; [done|]. intros x. split; [tauto|]. by intros [->|].
  - case_decide as Hroom.
    + split.
      * split; [|rewrite length_app; simpl; lia].
        apply NoDup_app. split; [done|]. split; [|apply NoDup_singleton].
        intros x Hx ->%list_elem_of_singleton. done.
      * intros x. cbn [elements_of].
        rewrite elem_of_app, list_elem_of_singleton. tauto.
    + apply Hbig. lia.
Qed.

Lemma inserted_snoc (Fs : list addr) F :
  inserted (Fs ++ [F]) = insert_imp F (inserted Fs).
Proof. unfold inserted. by rewrite foldl_app. Qed.

(** The pointer set is a set: after any sequence of insertions its
    iteration yields each inserted pointer once, and nothing else. *)
Lemma inserted_spec (Fs : list addr) :
  SmallPtrSet_wf (inserted Fs)
  ∧ ∀ x, x ∈ elements_of (inserted Fs) ↔ x ∈ Fs.
Proof.
  induction Fs as [|F Fs IH] using rev_ind.
  - split; [split; [constructor|simpl; lia]|]. done.
  - rewrite inserted_snoc. destruct IH as [Hwf Hel].
    destruct (insert_imp_spec F _ Hwf) as [Hwf' Hel'].
    split; [done|]. intros x. rewrite Hel', Hel, elem_of_app, list_elem_of_singleton.
    tauto.
Qed.

(** While at most [SmallSize] distinct pointers have been inserted, the set
    iterates in insertion order. *)
Lemma inserted_small (Fs : list addr) :
  NoDup Fs → length Fs ≤ SmallSize → inserted Fs = SmallStorage Fs.
Proof.
  induction Fs as [|F Fs IH] using rev_ind; intros Hnd Hlen; [done|].
  rewrite inserted_snoc. rewrite length_app in Hlen. simpl in Hlen.
  apply NoDup_app in Hnd as (Hnd & Hfresh & _).
  rewrite IH by (done || lia). simpl.
  rewrite decide_False.
  - rewrite decide_True by lia. done.
  - intros Hin. apply (Hfresh F Hin). by apply list_elem_of_singleton.
Qed.

(** ** The resolver *)

Lemma RuntimeFunction_name_inj FnID FnID' :
  RuntimeFunction_name FnID = RuntimeFunction_name FnID' → FnID = FnID'.
Proof. by destruct FnID, FnID'. Qed.

Lemma getFunction_snoc (M : Module) Fn Name :
  getFunction {| M_functions := M_functions M ++ [Fn];
                 M_constants := M_constants M |} Name
  = match getFunction M Name with
    | Some Fn' => Some Fn'
    | None => if decide (F_name Fn = Name) then Some Fn else None
    end.
Proof.
  unfold getFunction. simpl. rewrite filter_app.
  destruct (filter _ (M_functions M)) as [|Fn' l]; simpl; [|done].
  rewrite filter_cons, filter_nil. by case_decide.
Qed.

(** Resolving creates at most once: a second resolution of any marker finds
    the declaration of the first. *)
Lemma getOrCreateRuntimeFunction_found (M : Module) FnID Fn :
  getFunction M (RuntimeFunction_name FnID) = Some Fn →
  getOrCreateRuntimeFunction M FnID = (M, F_addr Fn).
Proof. intros H. unfold getOrCreateRuntimeFunction. by rewrite H. Qed.

Lemma getOrCreateRuntimeFunction_resolves (M : Module) FnID :
  ∃ Fn, getFunction (getOrCreateRuntimeFunction M FnID).1
          (RuntimeFunction_name FnID) = Some Fn
        ∧ (getOrCreateRuntimeFunction M FnID).2 = F_addr Fn.
Proof.
  unfold getOrCreateRuntimeFunction.
  destruct (getFunction M (RuntimeFunction_name FnID)) as [Fn|] eqn:Hget; simpl.
  - eauto.
  - exists (createFunction M FnID). rewrite getFunction_snoc, Hget.
    simpl. by rewrite decide_True.
Qed.

Lemma getOrCreateRuntimeFunction_keeps (M : Module) FnID Name Fn :
  getFunction M Name = Some Fn →
  getFunction (getOrCreateRuntimeFunction M FnID).1 Name = Some Fn.
Proof.
  intros H. unfold getOrCreateRuntimeFunction.
  destruct (getFunction M (RuntimeFunction_name FnID)); simpl; [done|].
  by rewrite getFunction_snoc, H.
Qed.

Lemma resolved_markers (M : Module) :
  (∃ Fn, getFunction (resolved M) (RuntimeFunction_name OMPRTL___kmpc_target_init)
         = Some Fn ∧ KernelInit_of M = F_addr Fn)
  ∧ (∃ Fn, getFunction (resolved M) (RuntimeFunction_name OMPRTL___kmpc_target_deinit)
           = Some Fn ∧ KernelDeinit_of M = F_addr Fn).
Proof.
  unfold resolved, KernelInit_of, KernelDeinit_of. split.
  - destruct (getOrCreateRuntimeFunction_resolves M OMPRTL___kmpc_target_init)
      as (Fn & Hget & Haddr).
    exists Fn. split; [|done]. by apply getOrCreateRuntimeFunction_keeps.
  - apply getOrCreateRuntimeFunction_resolves.
Qed.

Lemma resolved_init_again (M : Module) :
  getOrCreateRuntimeFunction (resolved M) OMPRTL___kmpc_target_init
  = (resolved M, KernelInit_of M).
Proof.
  destruct (resolved_markers M) as [(Fn & Hget & ->) _].
  by apply getOrCreateRuntimeFunction_found.
Qed.

Lemma resolved_deinit_again (M : Module) :
  getOrCreateRuntimeFunction (resolved M) OMPRTL___kmpc_target_deinit
  = (resolved M, KernelDeinit_of M).
Proof.
  destruct (resolved_markers M) as [_ (Fn & Hget & ->)].
  by apply getOrCreateRuntimeFunction_found.
Qed.

Lemma resolved_idemp (M : Module) : resolved (resolved M) = resolved M.
Proof.
  unfold resolved at 1.
  by rewrite resolved_init_again; simpl; rewrite resolved_deinit_again.
Qed.

Lemma KernelInit_of_resolved (M : Module) :
  KernelInit_of (resolved M) = KernelInit_of M.
Proof. unfold KernelInit_of at 1. by rewrite resolved_init_again. Qed.

Lemma KernelDeinit_of_resolved (M : Module) :
  KernelDeinit_of (resolved M) = KernelDeinit_of M.
Proof.
  unfold KernelDeinit_of at 1.
  by rewrite resolved_init_again; simpl; rewrite resolved_deinit_again.
Qed.

(** The resolver only appends declarations. *)
Lemma getOrCreateRuntimeFunction_functions (M : Module) FnID :
  ∃ created, M_functions (getOrCreateRuntimeFunction M FnID).1
             = M_functions M ++ created
             ∧ length created ≤ 1
             ∧ (∀ Fn, Fn ∈ created → F_blocks Fn = [])
             ∧ M_constants (getOrCreateRuntimeFunction M FnID).1 = M_constants M.
Proof.
  unfold getOrCreateRuntimeFunction.
  destruct (getFunction M (RuntimeFunction_name FnID)); simpl.
  - exists []. rewrite app_nil_r. split; [done|]. split; [simpl; lia|].
    split; [|done]. by intros Fn ?%elem_of_nil.
  - eexists [_]. split; [done|]. split; [simpl; lia|]. split; [|done].
    by intros Fn ->%list_elem_of_singleton.
Qed.

Lemma resolved_functions (M : Module) :
  ∃ created, M_functions (resolved M) = M_functions M ++ created
             ∧ length created ≤ 2
             ∧ (∀ Fn, Fn ∈ created → F_blocks Fn = [])
             ∧ M_constants (resolved M) = M_constants M.
Proof.
  unfold resolved.
  destruct (getOrCreateRuntimeFunction_functions M OMPRTL___kmpc_target_init)
    as (c1 & H1 & Hl1 & Hb1 & Hc1).
  destruct (getOrCreateRuntimeFunction_functions
              (getOrCreateRuntimeFunction M OMPRTL___kmpc_target_init).1
              OMPRTL___kmpc_target_deinit) as (c2 & H2 & Hl2 & Hb2 & Hc2).
  exists (c1 ++ c2). rewrite H2, H1, <- app_assoc. split; [done|].
  split; [rewrite length_app; lia|]. split; [|congruence].
  intros Fn [?|?]%elem_of_app; auto.
Qed.

(** ** The scan *)

Lemma IsKernelEntry_spec (F : addr) (st : State) :
  IsKernelEntry F st
  = (classify (resolved (st_module st)) F,
     {| st_module := resolved (st_module st);
        st_outs := st_outs st;
        st_log := st_log st ++ query_events (resolved (st_module st)) F |}).
Proof.
  unfold query_events, classify.
  rewrite KernelInit_of_resolved, KernelDeinit_of_resolved.
  unfold IsKernelEntry, bind, resolve, get_module, log_event, ret,
    resolved, KernelInit_of, KernelDeinit_of.
  destruct (getOrCreateRuntimeFunction (st_module st) OMPRTL___kmpc_target_init)
    as [M1 KernelInit]; simpl.
  destruct (getOrCreateRuntimeFunction M1 OMPRTL___kmpc_target_deinit)
    as [M2 KernelDeinit]; simpl.
  by rewrite <- !app_assoc.
Qed.

Lemma scan_functions_stable (n : nat) :
  ∀ fuel i KES st,
    resolved (st_module st) = st_module st →
    length (M_functions (st_module st)) - i = n →
    n < fuel →
    scan_functions fuel i KES st
    = (Some (foldl (λ s F, insert_imp F s) KES
               (filter (λ F, classify (st_module st) F = true)
                  (F_addr <$> drop i (M_functions (st_module st))))),
       {| st_module := st_module st;
          st_outs := st_outs st;
          st_log := st_log st
                    ++ ((F_addr <$> drop i (M_functions (st_module st)))
                          ≫= query_events (st_module st)) |}).
Proof.
  induction n as [|n IH]; intros fuel i KES st Hstable Hn Hfuel;
    (destruct fuel as [|fuel]; [lia|]); simpl; unfold bind, get_module.
  - rewrite lookup_ge_None_2 by lia. rewrite drop_ge by lia. simpl.
    rewrite app_nil_r. by destruct st.
  - destruct (M_functions (st_module st) !! i) as [Fn|] eqn:Hi.
    2:{ apply lookup_ge_None_1 in Hi. lia. }
    rewrite IsKernelEntry_spec, Hstable.
    rewrite IH; simpl; [|done|lia|lia].
    rewrite (drop_S _ _ _ Hi). rewrite fmap_cons, filter_cons. simpl.
    rewrite <- app_assoc. f_equal. f_equal.
    destruct (classify (st_module st) (F_addr Fn)); by case_decide.
Qed.

Lemma scan_functions_spec (st : State) :
  scan_functions (scan_fuel (st_module st)) 0 SmallPtrSet_empty st
  = (Some (inserted (kernel_entries (scanned (st_module st)))),
     {| st_module := scanned (st_module st);
        st_outs := st_outs st;
        st_log := st_log st
                  ++ ((F_addr <$> M_functions (scanned (st_module st)))
                        ≫= query_events (scanned (st_module st))) |}).
Proof.
  unfold scan_fuel, scanned, kernel_entries, inserted.
  destruct (M_functions (st_module st)) as [|Fn Fs] eqn:HFs.
  - rewrite HFs. simpl. unfold bind, get_module. rewrite HFs. simpl.
    rewrite app_nil_r. by destruct st.
  - replace (length (Fn :: Fs) + 3) with (S (length Fs + 3)) by (simpl; lia).
    simpl. unfold bind, get_module. rewrite HFs. simpl.
    rewrite IsKernelEntry_spec.
    destruct (resolved_functions (st_module st))
      as (created & Hfuns & Hcreated & _).
    rewrite HFs in Hfuns.
    rewrite (scan_functions_stable (length (Fs ++ created)));
      simpl; [|apply resolved_idemp|rewrite Hfuns; simpl; lia
              |rewrite length_app; lia].
    rewrite Hfuns. simpl. rewrite drop_0, filter_cons. simpl.
    rewrite <- app_assoc. f_equal. f_equal.
    destruct (classify (resolved (st_module st)) (F_addr Fn)); by case_decide.
Qed.

(** ** The annotation loop *)

Lemma append_assoc (s1 s2 s3 : string) :
  (s1 +:+ s2) +:+ s3 = s1 +:+ (s2 +:+ s3).
Proof.
  induction s1 as [|a s1 IH]; [done|].
  change (String a ((s1 +:+ s2) +:+ s3) = String a (s1 +:+ (s2 +:+ s3))).
  by rewrite IH.
Qed.

Lemma append_nil_r (s : string) : s +:+ "" = s.
Proof.
  induction s as [|a s IH]; [done|].
  change (String a (s +:+ "") = String a s). by rewrite IH.
Qed.

Lemma addFnAttr_to_idemp (Fn : Function) :
  addFnAttr_to (addFnAttr_to Fn) = addFnAttr_to Fn.
Proof. unfold addFnAttr_to. simpl. by rewrite insert_insert_eq. Qed.

Lemma getName_addFnAttr (M : Module) (F F' : addr) :
  getName (addFnAttr M F) F' = getName M F'.
Proof.
  unfold getName, addFnAttr. simpl. f_equal.
  induction (M_functions M) as [|Fn Fs IH]; [done|].
  rewrite fmap_cons, !filter_cons.
  assert (F_addr (if decide (F_addr Fn = F) then addFnAttr_to Fn else Fn)
          = F_addr Fn) as -> by by case_decide.
  case_decide; [|done]. simpl. by case_decide.
Qed.

Lemma annotated_cons (M : Module) (F : addr) (Fs : list addr) :
  annotated (addFnAttr M F) Fs = annotated M (F :: Fs).
Proof.
  unfold annotated, addFnAttr. simpl. f_equal.
  rewrite <- list_fmap_compose. apply list_fmap_ext. intros _ Fn _. simpl.
  destruct (decide (F_addr Fn = F)) as [<-|Hne]; simpl.
  - rewrite (decide_True (P := F_addr Fn ∈ F_addr Fn :: Fs)) by left.
    case_decide; [apply addFnAttr_to_idemp|done].
  - destruct (decide (F_addr Fn ∈ Fs)) as [Hin|Hout].
    + by rewrite decide_True by by right.
    + rewrite decide_False; [done|]. by intros [?|?]%elem_of_cons.
Qed.

Lemma diagnostics_addFnAttr (M : Module) (F : addr) (Fs : list addr) :
  diagnostics (addFnAttr M F) Fs = diagnostics M Fs.
Proof.
  unfold diagnostics. induction Fs as [|F' Fs IH]; [done|].
  simpl. by rewrite IH, getName_addFnAttr.
Qed.

Lemma annotated_nil (M : Module) : annotated M [] = M.
Proof.
  unfold annotated. destruct M as [Fs Cs]. simpl. f_equal.
  rewrite <- (list_fmap_id Fs) at 2. by apply list_fmap_ext.
Qed.

Lemma annotate_all_spec (Fs : list addr) :
  ∀ st, annotate_all Fs st
        = (tt, {| st_module := annotated (st_module st) Fs;
                  st_outs := st_outs st +:+ diagnostics (st_module st) Fs;
                  st_log := st_log st ++ (Annotated <$> Fs) |}).
Proof.
  induction Fs as [|F Fs IH]; intros st; simpl.
  - unfold ret. rewrite annotated_nil. simpl.
    rewrite append_nil_r, app_nil_r. by destruct st.
  - unfold bind, annotate. rewrite IH. simpl.
    by rewrite annotated_cons, diagnostics_addFnAttr, append_assoc,
      <- app_assoc.
Qed.

(** ** The whole run *)

(** [visitor] always completes, with the set of the classified functions
    and in the state [visited]. *)
Lemma visitor_spec (st : State) :
  visitor st
  = (Some (inserted (kernel_entries (scanned (st_module st)))), visited st).
Proof.
  unfold visitor, bind, get_module. rewrite scan_functions_spec.
  rewrite annotate_all_spec. unfold visited. simpl. by rewrite <- app_assoc.
Qed.

(** ** Use lists and function bodies *)

Lemma scan_uses_true (us : list Use) (F : addr) :
  scan_uses us F = true
  ↔ ∃ U I, U ∈ us ∧ getUser U = UInstruction (Some F) I.
Proof.
  induction us as [|U us IH]; simpl.
  - split; [done|]. by intros (U & I & ?%elem_of_nil & _).
  - destruct U as [[parent I|k] n]; simpl.
    + case_decide as Hp.
      * subst parent. split; [|done]. intros _.
        exists (mkUse (UInstruction (Some F) I) n), I. split; [left|done].
      * rewrite IH. split.
        -- intros (U & I' & HU & Huser). exists U, I'. split; [by right|done].
        -- intros (U & I' & [->|HU]%elem_of_cons & Huser); [|eauto].
           simpl in Huser. congruence.
    + rewrite IH. split.
      * intros (U & I' & HU & Huser). exists U, I'. split; [by right|done].
      * intros (U & I' & [->|HU]%elem_of_cons & Huser); [done|eauto].
Qed.

(** The flag does not depend on the order of the use list, nor on the
    [break]. *)
Lemma scan_uses_Permutation (us us' : list Use) (F : addr) :
  us ≡ₚ us' → scan_uses us F = scan_uses us' F.
Proof.
  intros Hperm. apply eq_true_iff_eq. rewrite !scan_uses_true.
  by setoid_rewrite Hperm.
Qed.

Lemma elem_of_slots_of (v : Value) (ops : list Value) (n : nat) :
  n ∈ slots_of v ops ↔ ops !! n = Some v.
Proof.
  unfold slots_of. rewrite list_elem_of_fmap. split.
  - intros ([i o] & -> & [Hv Hin]%list_elem_of_filter). simpl in *. subst o.
    apply elem_of_lookup_imap in Hin as (i' & o' & [= -> ->] & Hlook). done.
  - intros Hn. exists (n, v). split; [done|].
    apply list_elem_of_filter. split; [done|].
    apply elem_of_lookup_imap. eauto.
Qed.

Lemma use_in_function (v : Value) (Fn : Function) (F : addr) :
  (∃ U I, U ∈ function_uses v Fn ∧ getUser U = UInstruction (Some F) I)
  ↔ F_addr Fn = F
    ∧ ∃ I, I ∈ concat (F_blocks Fn) ∧ v ∈ getOperands I.
Proof.
  unfold function_uses, instruction_uses. split.
  - intros (U & I & HU & Huser).
    apply list_elem_of_bind in HU as (I' & HU & HI').
    apply list_elem_of_fmap in HU as (n & -> & Hn%elem_of_slots_of).
    simpl in Huser. injection Huser as -> ->.
    split; [done|]. exists I. split; [done|].
    apply list_elem_of_lookup. eauto.
  - intros [<- (I & HI & [n Hn]%list_elem_of_lookup)].
    exists (mkUse (UInstruction (Some (F_addr Fn)) I) n), I. split; [|done].
    apply list_elem_of_bind. exists I. split; [|done].
    apply list_elem_of_fmap. exists n. split; [done|].
    by apply elem_of_slots_of.
Qed.

Lemma references_true (Fn : Function) (a : addr) :
  references Fn a = true
  ↔ ∃ I, I ∈ concat (F_blocks Fn) ∧ VFunc a ∈ getOperands I.
Proof.
  unfold references. rewrite existsb_exists. split.
  - intros (I & HI%list_elem_of_In & Hop%bool_decide_eq_true). eauto.
  - intros (I & HI & Hop). exists I. split; [by apply list_elem_of_In|].
    by apply bool_decide_eq_true.
Qed.

(** The scan of a marker's use list finds the function at [F] exactly when a
    function at that address holds an instruction with the marker among its
    operands; the module's non-instruction users play no role. *)
Lemma scan_uses_references (M : Module) (a F : addr) :
  scan_uses (uses M a) F = true
  ↔ ∃ Fn, Fn ∈ M_functions M ∧ F_addr Fn = F ∧ references Fn a = true.
Proof.
  rewrite scan_uses_true. unfold uses. split.
  - intros (U & I & [HU|HU]%elem_of_app & Huser).
    + apply list_elem_of_bind in HU as (Fn & HU & HFn).
      exists Fn. split; [done|].
      rewrite references_true. apply use_in_function. eauto.
    + apply list_elem_of_In, in_concat in HU
        as (us & Hus%list_elem_of_In & HU%list_elem_of_In).
      apply elem_of_lookup_imap in Hus as (k & ops & -> & _).
      unfold constant_uses in HU.
      apply list_elem_of_fmap in HU as (n & -> & _). done.
  - intros (Fn & HFn & Haddr & Href%references_true).
    destruct (proj2 (use_in_function (VFunc a) Fn F)) as (U & I & HU & Huser);
      [done|].
    exists U, I. split; [|done]. apply elem_of_app. left.
    apply list_elem_of_bind. eauto.
Qed.

Lemma has_direct_call_references (Fn : Function) (a : addr) :
  has_direct_call Fn a = true → references Fn a = true.
Proof.
  unfold has_direct_call. rewrite existsb_exists, references_true.
  intros (I & HI%list_elem_of_In & Hcall). exists I. split; [done|].
  destruct I as [[c| |] args|]; simpl in Hcall; try done.
  apply bool_decide_eq_true in Hcall as ->. simpl.
  apply elem_of_app. right. by apply list_elem_of_singleton.
Qed.

(** Distinct function objects have distinct addresses. *)
Lemma function_at_unique (Fs : list Function) (Fn Fn' : Function) :
  NoDup (F_addr <$> Fs) → Fn ∈ Fs → Fn' ∈ Fs → F_addr Fn = F_addr Fn' →
  Fn = Fn'.
Proof.
  intros Hnd [i Hi]%list_elem_of_lookup [j Hj]%list_elem_of_lookup Heq.
  assert (i = j) as ->; [|congruence].
  eapply (NoDup_lookup _ i j (F_addr Fn) Hnd).
  - by rewrite list_lookup_fmap, Hi.
  - by rewrite list_lookup_fmap, Hj, Heq.
Qed.

Lemma classify_references (M : Module) (Fn : Function) :
  NoDup (F_addr <$> M_functions M) → Fn ∈ M_functions M →
  classify M (F_addr Fn)
  = references Fn (KernelInit_of M) && references Fn (KernelDeinit_of M).
Proof.
  intros Hnd HFn. unfold classify.
  assert (Hscan : ∀ a, scan_uses (uses M a) (F_addr Fn) = references Fn a).
  { intros a. apply eq_true_iff_eq. rewrite scan_uses_references. split.
    - intros (Fn' & HFn' & Haddr & Href).
      by rewrite (function_at_unique _ Fn Fn' Hnd HFn HFn').
    - intros Href. eauto. }
  by rewrite !Hscan.
Qed.

(** ** Running on an annotated module *)

Lemma scanned_stable (M : Module) : scanned (scanned M) = scanned M.
Proof.
  unfold scanned. destruct (M_functions M) as [|Fn Fs] eqn:HFs.
  - by rewrite HFs.
  - destruct (resolved_functions M) as (created & -> & _).
    rewrite HFs. simpl. apply resolved_idemp.
Qed.

Lemma getFunction_annotated (M : Module) (L : list addr) (Name : string) :
  getFunction (annotated M L) Name
  = (λ Fn, if decide (F_addr Fn ∈ L) then addFnAttr_to Fn else Fn)
      <$> getFunction M Name.
Proof.
  unfold getFunction, annotated. simpl.
  induction (M_functions M) as [|Fn Fs IH]; [done|].
  rewrite fmap_cons, !filter_cons.
  assert (F_name (if decide (F_addr Fn ∈ L) then addFnAttr_to Fn else Fn)
          = F_name Fn) as -> by by case_decide.
  by case_decide.
Qed.

Lemma resolved_annotated (M : Module) (L : list addr) :
  resolved M = M →
  resolved (annotated M L) = annotated M L
  ∧ KernelInit_of (annotated M L) = KernelInit_of M
  ∧ KernelDeinit_of (annotated M L) = KernelDeinit_of M.
Proof.
  intros Hstable.
  destruct (resolved_markers M) as [(Fi & Hi & Hki) (Fd & Hd & Hkd)].
  rewrite Hstable in Hi, Hd.
  assert (Hinit : getOrCreateRuntimeFunction (annotated M L)
                    OMPRTL___kmpc_target_init = (annotated M L, KernelInit_of M)).
  { unfold getOrCreateRuntimeFunction at 1.
    rewrite getFunction_annotated, Hi. simpl. rewrite Hki. by case_decide. }
  assert (Hdeinit : getOrCreateRuntimeFunction (annotated M L)
                      OMPRTL___kmpc_target_deinit
                    = (annotated M L, KernelDeinit_of M)).
  { unfold getOrCreateRuntimeFunction at 1.
    rewrite getFunction_annotated, Hd. simpl. rewrite Hkd. by case_decide. }
  unfold resolved, KernelInit_of, KernelDeinit_of.
  rewrite Hinit. simpl. rewrite Hdeinit. done.
Qed.

Lemma uses_annotated (M : Module) (L : list addr) (a : addr) :
  uses (annotated M L) a = uses M a.
Proof.
  unfold uses, annotated. simpl. f_equal.
  induction (M_functions M) as [|Fn Fs IH]; [done|].
  csimpl. rewrite IH. f_equal.
  unfold function_uses. by case_decide.
Qed.

Lemma addresses_annotated (M : Module) (L : list addr) :
  F_addr <$> M_functions (annotated M L) = F_addr <$> M_functions M.
Proof.
  unfold annotated. simpl. rewrite <- list_fmap_compose.
  apply list_fmap_ext. intros _ Fn _. simpl. by case_decide.
Qed.

Lemma filter_classify_ext (f g : addr → bool) (l : list addr) :
  (∀ F, f F = g F) →
  filter (λ F, f F = true) l = filter (λ F, g F = true) l.
Proof.
  intros Hfg. induction l as [|F l IH]; [done|].
  rewrite !filter_cons, IH, Hfg. done.
Qed.

Lemma scanned_annotated (M : Module) (L : list addr) :
  scanned M = M →
  scanned (annotated M L) = annotated M L
  ∧ kernel_entries (annotated M L) = kernel_entries M
  ∧ (F_addr <$> M_functions (annotated M L)) ≫= query_events (annotated M L)
    = (F_addr <$> M_functions M) ≫= query_events M.
Proof.
  intros Hstable. unfold scanned in *.
  destruct (M_functions M) as [|Fn Fs] eqn:HFs.
  - unfold kernel_entries. rewrite addresses_annotated, HFs.
    unfold annotated. by rewrite HFs.
  - destruct (resolved_annotated M L Hstable) as (Hres & Hki & Hkd).
    assert (Hclass : ∀ F, classify (annotated M L) F = classify M F).
    { intros F. unfold classify. by rewrite !uses_annotated, Hki, Hkd. }
    split.
    + unfold annotated at 1. simpl. rewrite HFs. simpl. done.
    + unfold kernel_entries. rewrite addresses_annotated. split.
      * by apply filter_classify_ext.
      * apply list_bind_ext; [|by rewrite HFs]. intros F.
        unfold query_events. by rewrite Hclass, Hki, Hkd.
Qed.

Lemma annotated_idemp (M : Module) (L : list addr) :
  annotated (annotated M L) L = annotated M L.
Proof.
  unfold annotated. simpl. f_equal. rewrite <- list_fmap_compose.
  apply list_fmap_ext. intros _ Fn _. simpl.
  destruct (decide (F_addr Fn ∈ L)); simpl.
  - rewrite decide_True by done. apply addFnAttr_to_idemp.
  - by rewrite decide_False.
Qed.

Lemma getName_annotated (M : Module) (L : list addr) (F : addr) :
  getName (annotated M L) F = getName M F.
Proof.
  unfold getName, annotated. simpl. f_equal.
  induction (M_functions M) as [|Fn Fs IH]; [done|].
  rewrite fmap_cons, !filter_cons.
  assert (F_addr (if decide (F_addr Fn ∈ L) then addFnAttr_to Fn else Fn)
          = F_addr Fn) as -> by by case_decide.
  case_decide; [|done]. simpl. by case_decide.
Qed.

Lemma diagnostics_annotated (M : Module) (L Fs : list addr) :
  diagnostics (annotated M L) Fs = diagnostics M Fs.
Proof.
  unfold diagnostics. induction Fs as [|F Fs IH]; [done|].
  simpl. by rewrite IH, getName_annotated.
Qed.

(** ** Membership in the set of kernel entry functions *)

Lemma scanned_functions (M : Module) (i : nat) (Fn : Function) :
  M_functions M !! i = Some Fn →
  scanned M = resolved M ∧ M_functions (scanned M) !! i = Some Fn.
Proof.
  intros Hi. unfold scanned.
  destruct (M_functions M) as [|Fn0 Fs] eqn:HFs; [done|].
  split; [done|]. destruct (resolved_functions M) as (created & -> & _).
  rewrite HFs. by apply lookup_app_l_Some.
Qed.

Lemma KernelInit_of_scanned (M : Module) :
  M_functions M ≠ [] → KernelInit_of (scanned M) = KernelInit_of M.
Proof.
  intros HFs. unfold scanned. destruct (M_functions M); [done|].
  apply KernelInit_of_resolved.
Qed.

Lemma KernelDeinit_of_scanned (M : Module) :
  M_functions M ≠ [] → KernelDeinit_of (scanned M) = KernelDeinit_of M.
Proof.
  intros HFs. unfold scanned. destruct (M_functions M); [done|].
  apply KernelDeinit_of_resolved.
Qed.

Lemma elem_of_kernel_entries (M : Module) (F : addr) :
  F ∈ elements_of (inserted (kernel_entries M))
  ↔ classify M F = true ∧ F ∈ F_addr <$> M_functions M.
Proof.
  destruct (inserted_spec (kernel_entries M)) as [_ ->].
  unfold kernel_entries. by rewrite list_elem_of_filter.
Qed.

Lemma kernel_entry_references (M : Module) (Fn : Function) :
  NoDup (F_addr <$> M_functions (scanned M)) →
  Fn ∈ M_functions M →
  F_addr Fn ∈ elements_of (inserted (kernel_entries (scanned M)))
  ↔ references Fn (KernelInit_of M) = true
    ∧ references Fn (KernelDeinit_of M) = true.
Proof.
  intros Hnd [i Hi]%list_elem_of_lookup.
  destruct (scanned_functions M i Fn Hi) as [_ Hi'].
  assert (HFn : Fn ∈ M_functions (scanned M))
    by (apply list_elem_of_lookup; eauto).
  assert (Hne : M_functions M ≠ []) by (intros H; by rewrite H in Hi).
  rewrite elem_of_kernel_entries, classify_references by done.
  rewrite KernelInit_of_scanned, KernelDeinit_of_scanned by done.
  rewrite andb_true_iff. split; [tauto|]. intros H. split; [done|].
  apply list_elem_of_fmap. eauto.
Qed.

Lemma bind_addresses {B : Type} (f : addr → list B) (Fs : list Function) :
  (F_addr <$> Fs) ≫= f = Fs ≫= (λ Fn, f (F_addr Fn)).
Proof. induction Fs as [|Fn Fs IH]; [done|]. csimpl. by rewrite IH. Qed.

Lemma getName_function (M : Module) (F : addr) :
  F ∈ F_addr <$> M_functions M →
  ∃ Fn, Fn ∈ M_functions M ∧ F_addr Fn = F ∧ getName M F = F_name Fn.
Proof.
  unfold getName. induction (M_functions M) as [|Fn Fs IH]; simpl.
  - by intros ?%elem_of_nil.
  - intros HF. rewrite filter_cons. case_decide as Haddr.
    + exists Fn. split; [left|done].
    + apply elem_of_cons in HF as [->|HF]; [done|].
      destruct (IH HF) as (Fn' & ? & ? & ?). exists Fn'. split; [by right|done].
Qed.

(** The text written for pointers into the module consists of one line per
    pointer, with the name of the function it refers to. *)
Lemma diagnostics_names (M : Module) (L : list addr) :
  (∀ F, F ∈ L → F ∈ F_addr <$> M_functions M) →
  ∃ Fns, F_addr <$> Fns = L
         ∧ Forall (λ Fn, Fn ∈ M_functions M) Fns
         ∧ diagnostics M L
           = foldr (λ Fn text,
                      ("Kernel entry function " +:+ F_name Fn +:+ newline)
                      +:+ text) "" Fns.
Proof.
  induction L as [|F L IH]; intros HL.
  - by exists [].
  - destruct IH as (Fns & Haddr & Hin & Htext).
    { intros F' HF'. apply HL. by right. }
    destruct (getName_function M F) as (Fn & HFn & HF & Hname);
      [apply HL; left|].
    exists (Fn :: Fns). split; [by rewrite fmap_cons, HF, Haddr|].
    split; [by constructor|]. simpl. by rewrite Htext, Hname.
Qed.

Lemma resolutions_app (FnID : RuntimeFunction) (l1 l2 : list Event) :
  resolutions FnID (l1 ++ l2) = resolutions FnID l1 + resolutions FnID l2.
Proof. unfold resolutions. by rewrite filter_app, length_app. Qed.

Lemma resolutions_queries (FnID : RuntimeFunction) (Fs : list Function)
    (KernelInit KernelDeinit : addr) (result : Function → bool) :
  resolutions FnID
    (Fs ≫= λ Fn, [Resolved OMPRTL___kmpc_target_init KernelInit;
                  Resolved OMPRTL___kmpc_target_deinit KernelDeinit;
                  Classified (F_addr Fn) (result Fn)])
  = length Fs.
Proof.
  induction Fs as [|Fn Fs IH]; [done|].
  rewrite bind_cons, resolutions_app, IH. by destruct FnID.
Qed.

Lemma resolutions_Annotated (FnID : RuntimeFunction) (L : list addr) :
  resolutions FnID (Annotated <$> L) = 0.
Proof. induction L as [|F L IH]; [done|]. by rewrite fmap_cons. Qed.

(** * The claims *)

(** C1.  A function of the unit is placed in
    [KernelEntryFunctions] if and only if its body holds an instruction with
    the resolved kernel-init marker among its operands and an instruction
    with the resolved kernel-deinit marker among its operands.  A direct call
    of a marker is such an instruction, so direct calls of both markers
    suffice; a function that refers to one marker only, or to neither, stays
    out. *)
Theorem C1_kernel_entry_iff_uses_both_markers (st : State) (Fn : Function) :
  NoDup (F_addr <$> M_functions (scanned (st_module st))) →
  Fn ∈ M_functions (st_module st) →
  ∃ KES st',
    visitor st = (Some KES, st')
    ∧ (F_addr Fn ∈ elements_of KES
       ↔ references Fn (KernelInit_of (st_module st)) = true
         ∧ references Fn (KernelDeinit_of (st_module st)) = true)
    ∧ (has_direct_call Fn (KernelInit_of (st_module st)) = true
       ∧ has_direct_call Fn (KernelDeinit_of (st_module st)) = true
       → F_addr Fn ∈ elements_of KES).
Proof.
  intros Hnd HFn. eexists _, _. split; [apply visitor_spec|].
  pose proof (kernel_entry_references (st_module st) Fn Hnd HFn) as Hiff.
  split; [done|]. intros [Hi Hd]. apply Hiff.
  split; by apply has_direct_call_references.
Qed.

(** C2.  The new-pass-manager adapter [run] and the legacy adapter
    [runOnModule] both complete, collect the same set and leave the same
    state behind: the same module with the same attributes, the same
    output. *)
Theorem C2_adapters_agree (st : State) :
  ∃ KES st',
    run st = (Some (KES, PreservedAnalyses_none), st')
    ∧ runOnModule st = (Some (KES, true), st').
Proof.
  eexists _, _. unfold run, runOnModule, bind, ret.
  rewrite visitor_spec. simpl. done.
Qed.

(** C3.  A second run on the module the first run left behind
    collects the same set and leaves the module, every attribute set
    included, as the first run left it; it writes the diagnostic lines of
    the first run once more. *)
Theorem C3_second_run (st : State) :
  ∃ KES st1 st2 text,
    visitor st = (Some KES, st1)
    ∧ visitor st1 = (Some KES, st2)
    ∧ st_module st2 = st_module st1
    ∧ st_outs st1 = st_outs st +:+ text
    ∧ st_outs st2 = st_outs st1 +:+ text
    ∧ text = diagnostics (st_module st1) (elements_of KES).
Proof.
  eexists _, _, _, _. split; [apply visitor_spec|].
  rewrite (visitor_spec (visited st)).
  set (M := scanned (st_module st)).
  set (L := elements_of (inserted (kernel_entries M))).
  destruct (scanned_annotated M L (scanned_stable _)) as (Hsc & Hke & _).
  assert (Hmod : st_module (visited st) = annotated M L) by done.
  rewrite Hmod, Hsc, Hke. fold L.
  split; [done|]. unfold visited at 1 2. simpl. fold M L.
  rewrite Hsc, Hke. fold L.
  rewrite annotated_idemp, !diagnostics_annotated. done.
Qed.

(** C4.  A function whose own instructions do not refer to
    both markers is not a kernel entry, although it calls a helper that
    calls both markers and is itself one: calls made by a callee never
    count. *)
Theorem C4_callee_calls_do_not_count (st : State) (Fn Helper : Function) :
  NoDup (F_addr <$> M_functions (scanned (st_module st))) →
  Fn ∈ M_functions (st_module st) →
  Helper ∈ M_functions (st_module st) →
  has_direct_call Fn (F_addr Helper) = true →
  has_direct_call Helper (KernelInit_of (st_module st)) = true →
  has_direct_call Helper (KernelDeinit_of (st_module st)) = true →
  references Fn (KernelInit_of (st_module st))
  && references Fn (KernelDeinit_of (st_module st)) = false →
  ∃ KES st',
    visitor st = (Some KES, st')
    ∧ F_addr Helper ∈ elements_of KES
    ∧ F_addr Fn ∉ elements_of KES.
Proof.
  intros Hnd HFn HHelper _ Hi Hd Hnone.
  eexists _, _. split; [apply visitor_spec|]. split.
  - apply kernel_entry_references; [done..|].
    split; by apply has_direct_call_references.
  - rewrite kernel_entry_references by done.
    intros [H1 H2]. by rewrite H1, H2 in Hnone.
Qed.

(** C5.  A function that is not in [KernelEntryFunctions] is left as it
    was, attribute set included; a function that is in it receives the
    attribute; the text written names the functions of the set and no
    other. *)
Theorem C5_other_functions_untouched (st : State) :
  ∃ KES st',
    visitor st = (Some KES, st')
    ∧ (∀ i Fn, M_functions (st_module st) !! i = Some Fn →
               F_addr Fn ∉ elements_of KES →
               M_functions (st_module st') !! i = Some Fn)
    ∧ (∀ i Fn, M_functions (st_module st) !! i = Some Fn →
               F_addr Fn ∈ elements_of KES →
               M_functions (st_module st') !! i = Some (addFnAttr_to Fn))
    ∧ st_outs st'
      = st_outs st
        +:+ foldr (λ F text, diagnostic (getName (scanned (st_module st)) F)
                             +:+ text) "" (elements_of KES).
Proof.
  eexists _, _. split; [apply visitor_spec|].
  split; [|split; [|done]]; intros i Fn Hi Hin;
    destruct (scanned_functions _ i Fn Hi) as [_ Hi'];
    unfold visited, annotated; simpl;
    rewrite list_lookup_fmap, Hi'; simpl.
  - by rewrite decide_False.
  - by rewrite decide_True.
Qed.

(** C6.  On every module, with or without classified functions,
    [runOnModule] runs [visitor] to its end, leaves the set and the state of
    that run, and returns [true]. *)
Theorem C6_runOnModule_returns_true (st : State) :
  ∃ KES st',
    visitor st = (Some KES, st')
    ∧ runOnModule st = (Some (KES, true), st').
Proof.
  eexists _, _. split; [apply visitor_spec|].
  unfold runOnModule, bind, ret. by rewrite visitor_spec.
Qed.

(** C7.  Both markers are resolved anew inside every
    classification query, so each is resolved once per function visited
    (and not at all when the module has no function); every resolution
    returns the same declaration, so all queries of a run use the same two
    declarations. *)
Theorem C7_markers_resolved_in_every_query (st : State) :
  ∃ KES st',
    visitor st = (Some KES, st')
    ∧ st_log st'
      = st_log st
        ++ (M_functions (scanned (st_module st)) ≫= λ Fn,
              [Resolved OMPRTL___kmpc_target_init
                 (KernelInit_of (st_module st));
               Resolved OMPRTL___kmpc_target_deinit
                 (KernelDeinit_of (st_module st));
               Classified (F_addr Fn)
                 (bool_decide (F_addr Fn ∈ elements_of KES))])
        ++ (Annotated <$> elements_of KES)
    ∧ ∀ FnID,
        resolutions FnID (st_log st')
        = resolutions FnID (st_log st)
          + length (M_functions (scanned (st_module st))).
Proof.
  eexists _, _. split; [apply visitor_spec|].
  match goal with
  | |- ?log' = ?log ∧ _ =>
    assert (Hlog : log' = log);
      [|split; [exact Hlog|]; intros FnID; rewrite Hlog;
        by rewrite !resolutions_app, resolutions_queries,
             resolutions_Annotated, Nat.add_0_r]
  end.
  unfold visited. simpl. f_equal. f_equal.
  rewrite bind_addresses.
  destruct (M_functions (st_module st)) as [|Fn0 Fs] eqn:HFs.
  { assert (scanned (st_module st) = st_module st) as ->
      by (unfold scanned; by rewrite HFs).
    by rewrite HFs. }
  assert (Hne : M_functions (st_module st) ≠ []) by by rewrite HFs.
  apply Forall_bind_ext, Forall_forall. intros Fn HFn.
  unfold query_events.
  rewrite KernelInit_of_scanned, KernelDeinit_of_scanned by done.
  do 3 f_equal. symmetry.
  destruct (classify _ _) eqn:Hc; f_equal.
  - apply bool_decide_eq_true, elem_of_kernel_entries.
    split; [done|]. apply list_elem_of_fmap. eauto.
  - apply bool_decide_eq_false. rewrite elem_of_kernel_entries.
    intros [? _]. congruence.
Qed.

(** C8.  The functions annotated are those of [KernelEntryFunctions], each
    once; for each of them, and for no other function, one line
    [Kernel entry function <name>] is written to [outs()], [<name>] being
    the name of the function of the module that the pointer refers to. *)
Theorem C8_one_line_per_annotated_function (st : State) :
  ∃ KES st' scan_log Fns,
    visitor st = (Some KES, st')
    ∧ NoDup (elements_of KES)
    ∧ st_log st' = st_log st ++ scan_log ++ (Annotated <$> elements_of KES)
    ∧ (∀ F, Annotated F ∉ scan_log)
    ∧ F_addr <$> Fns = elements_of KES
    ∧ Forall (λ Fn, Fn ∈ M_functions (scanned (st_module st))) Fns
    ∧ st_outs st'
      = st_outs st
        +:+ foldr (λ Fn text,
                     ("Kernel entry function " +:+ F_name Fn +:+ newline)
                     +:+ text) "" Fns.
Proof.
  destruct (diagnostics_names (scanned (st_module st))
              (elements_of (inserted (kernel_entries (scanned (st_module st))))))
    as (Fns & Haddr & Hin & Htext).
  { intros F HF. by apply elem_of_kernel_entries in HF as [_ ?]. }
  eexists _, _, _, Fns. split; [apply visitor_spec|].
  split; [apply SmallPtrSet_wf_NoDup, inserted_spec|].
  split; [done|]. split; [|split; [done|split; [done|]]].
  - intros F (F' & HF & _)%list_elem_of_bind.
    unfold query_events in HF.
    repeat (apply elem_of_cons in HF as [HF|HF]; [done|]).
    by apply elem_of_nil in HF.
  - unfold visited. simpl. by rewrite Htext.
Qed.

(** C9.  While the classified functions are at most [SmallSize] (8), the
    set holds exactly them and iterates in insertion order, so the
    diagnostic lines come in the order in which the functions are stored in
    the module.  (A larger set iterates in the order of its hash buckets,
    see [C9_counterexample].) *)
Theorem C9_module_order_while_small (st : State) :
  NoDup (F_addr <$> M_functions (scanned (st_module st))) →
  length (kernel_entries (scanned (st_module st))) ≤ SmallSize →
  ∃ KES st',
    visitor st = (Some KES, st')
    ∧ (∀ F, F ∈ elements_of KES ↔ F ∈ kernel_entries (scanned (st_module st)))
    ∧ elements_of KES = kernel_entries (scanned (st_module st))
    ∧ st_outs st'
      = st_outs st
        +:+ diagnostics (scanned (st_module st))
              (kernel_entries (scanned (st_module st))).
Proof.
  intros Hnd Hsmall. eexists _, _. split; [apply visitor_spec|].
  split; [apply inserted_spec|].
  assert (Hel : elements_of (inserted (kernel_entries (scanned (st_module st))))
                = kernel_entries (scanned (st_module st))).
  { rewrite inserted_small; [done| |done]. by apply NoDup_filter. }
  split; [done|]. unfold visited. simpl. by rewrite Hel.
Qed.

(** C10.  A flag is set exactly when the use list holds a use whose user is
    an instruction of the function asked about; uses by other users, such as
    constant expressions and global initialisers, never count, so a flag
    does not depend on the non-instruction users of the module. *)
Theorem C10_only_instruction_users_count (us : list Use) (F : addr) :
  (scan_uses us F = true
   ↔ ∃ U I, U ∈ us ∧ getUser U = UInstruction (Some F) I)
  ∧ (scan_uses
       (filter (λ U, is_Some (dyn_cast_Instruction (getUser U))) us) F
     = scan_uses us F)
  ∧ (∀ Fs Cs Cs' marker,
       scan_uses (uses {| M_functions := Fs; M_constants := Cs |} marker) F
       = scan_uses (uses {| M_functions := Fs; M_constants := Cs' |} marker) F).
Proof.
  split; [apply scan_uses_true|]. split.
  - induction us as [|[[parent I|k] n] us IH]; [done| |].
    + rewrite filter_cons_True by (simpl; eauto). simpl.
      by rewrite IH.
    + rewrite filter_cons_False by (simpl; by intros [? ?]). done.
  - intros Fs Cs Cs' marker. apply eq_true_iff_eq.
    by rewrite !scan_uses_references.
Qed.

(** * Further properties of a run *)

(** ** What the resolver adds *)

Lemma getFunction_declares (M : Module) (FnID : RuntimeFunction) :
  declares M FnID = false ↔ getFunction M (RuntimeFunction_name FnID) = None.
Proof.
  unfold declares. rewrite bool_decide_eq_false.
  destruct (getFunction M (RuntimeFunction_name FnID)).
  - split; [|done]. intros H. destruct H. eauto.
  - split; [done|]. by intros _ [? ?].
Qed.

Lemma resolved_names (M : Module) :
  F_name <$> M_functions (resolved M)
  = (F_name <$> M_functions M) ++ (RuntimeFunction_name <$> missing M).
Proof.
  unfold resolved, missing. rewrite !filter_cons, filter_nil.
  unfold getOrCreateRuntimeFunction at 2.
  destruct (getFunction M (RuntimeFunction_name OMPRTL___kmpc_target_init))
    as [Fi|] eqn:Hi; simpl.
  - rewrite decide_False; last first.
    { rewrite getFunction_declares, Hi. done. }
    unfold getOrCreateRuntimeFunction.
    destruct (getFunction M (RuntimeFunction_name OMPRTL___kmpc_target_deinit))
      as [Fd|] eqn:Hd; simpl.
    + rewrite decide_False; last first.
      { rewrite getFunction_declares, Hd. done. }
      by rewrite app_nil_r.
    + rewrite decide_True by by rewrite getFunction_declares.
      by rewrite fmap_app.
  - rewrite decide_True by by rewrite getFunction_declares.
    unfold getOrCreateRuntimeFunction. rewrite getFunction_snoc. simpl.
    destruct (getFunction M "__kmpc_target_deinit") as [Fd|] eqn:Hd; simpl.
    + rewrite decide_False; last first.
      { rewrite getFunction_declares. simpl. rewrite Hd. done. }
      by rewrite fmap_app.
    + rewrite decide_True; last first.
      { rewrite getFunction_declares. simpl. by rewrite Hd. }
      by rewrite !fmap_app, <- app_assoc.
Qed.

Lemma names_annotated (M : Module) (L : list addr) :
  F_name <$> M_functions (annotated M L) = F_name <$> M_functions M.
Proof.
  unfold annotated. simpl. rewrite <- list_fmap_compose.
  apply list_fmap_ext. intros _ Fn _. simpl. by case_decide.
Qed.

Lemma declarations_have_no_uses (v : Value) (Fs : list Function) :
  (∀ Fn, Fn ∈ Fs → F_blocks Fn = []) → Fs ≫= function_uses v = [].
Proof.
  induction Fs as [|Fn Fs IH]; intros Hbody; [done|].
  rewrite bind_cons, IH.
  - unfold function_uses. rewrite (Hbody Fn); [done|left].
  - intros Fn' HFn'. apply Hbody. by right.
Qed.

Lemma uses_resolved (M : Module) (a : addr) :
  uses (resolved M) a = uses M a.
Proof.
  destruct (resolved_functions M) as (created & Hfuns & _ & Hbody & Hconst).
  unfold uses. rewrite Hfuns, Hconst, bind_app. f_equal.
  by rewrite (declarations_have_no_uses _ created Hbody), app_nil_r.
Qed.

Lemma uses_scanned (M : Module) (a : addr) : uses (scanned M) a = uses M a.
Proof.
  unfold scanned. destruct (M_functions M); [done|]. apply uses_resolved.
Qed.

Lemma resolved_scanned (M : Module) :
  resolved M = M → scanned M = M.
Proof. intros H. unfold scanned. by destruct (M_functions M). Qed.

Lemma declared_resolved (M : Module) (Fi Fd : Function) :
  getFunction M (RuntimeFunction_name OMPRTL___kmpc_target_init) = Some Fi →
  getFunction M (RuntimeFunction_name OMPRTL___kmpc_target_deinit) = Some Fd →
  resolved M = M
  ∧ KernelInit_of M = F_addr Fi
  ∧ KernelDeinit_of M = F_addr Fd.
Proof.
  intros Hi Hd. unfold resolved, KernelInit_of, KernelDeinit_of.
  rewrite (getOrCreateRuntimeFunction_found M _ Fi Hi). simpl.
  by rewrite (getOrCreateRuntimeFunction_found M _ Fd Hd).
Qed.

Lemma visited_module (st : State) :
  st_module (visited st)
  = annotated (scanned (st_module st))
      (elements_of (inserted (kernel_entries (scanned (st_module st))))).
Proof. done. Qed.

(** X1.  On a module without functions a run does nothing: no marker is
    resolved or declared, nothing is collected, annotated or written;
    [runOnModule] still reports a change and [run] still preserves
    nothing. *)
Theorem X1_unit_without_functions_is_left_alone (st : State) :
  M_functions (st_module st) = [] →
  visitor st = (Some SmallPtrSet_empty, st)
  ∧ run st = (Some (SmallPtrSet_empty, PreservedAnalyses_none), st)
  ∧ runOnModule st = (Some (SmallPtrSet_empty, true), st).
Proof.
  intros HFs.
  assert (Hv : visitor st = (Some SmallPtrSet_empty, st)).
  { rewrite visitor_spec.
    assert (scanned (st_module st) = st_module st) as Hsc
      by (unfold scanned; by rewrite HFs).
    unfold visited, kernel_entries. rewrite Hsc, HFs. simpl.
    rewrite annotated_nil, append_nil_r, app_nil_r. by destruct st. }
  split; [done|]. unfold run, runOnModule, bind, ret. by rewrite Hv.
Qed.

(** X2.  On a module with at least one function a run declares the markers
    that are missing, and only those: their declarations, without a body,
    follow the functions of the input in the function list, kernel-init
    first; afterwards both markers are declared, whether or not any function
    was collected. *)
Theorem X2_missing_markers_are_declared (st : State) :
  M_functions (st_module st) ≠ [] →
  ∃ KES st',
    visitor st = (Some KES, st')
    ∧ F_name <$> M_functions (st_module st')
      = (F_name <$> M_functions (st_module st))
        ++ (RuntimeFunction_name <$> missing (st_module st))
    ∧ (∀ i Fn, M_functions (st_module st') !! i = Some Fn →
               length (M_functions (st_module st)) ≤ i →
               F_blocks Fn = [])
    ∧ (∀ FnID, is_Some (getFunction (st_module st')
                          (RuntimeFunction_name FnID))).
Proof.
  intros Hne. eexists _, _. split; [apply visitor_spec|].
  assert (Hsc : scanned (st_module st) = resolved (st_module st)).
  { unfold scanned. by destruct (M_functions (st_module st)). }
  rewrite visited_module, Hsc.
  split; [by rewrite names_annotated, resolved_names|]. split.
  - intros i Fn Hi Hlen.
    destruct (resolved_functions (st_module st))
      as (created & Hfuns & _ & Hbody & _).
    unfold annotated in Hi. simpl in Hi.
    rewrite list_lookup_fmap, Hfuns, lookup_app_r in Hi by done.
    destruct (created !! _) as [Fn0|] eqn:Hc; [|done].
    simpl in Hi. injection Hi as <-.
    assert (F_blocks Fn0 = []) by (eapply Hbody, list_elem_of_lookup_2, Hc).
    by case_decide.
  - intros FnID. rewrite getFunction_annotated.
    destruct (resolved_markers (st_module st))
      as [(Fi & Hi & _) (Fd & Hd & _)].
    destruct FnID; [rewrite Hi|rewrite Hd]; simpl; eauto.
Qed.

(** X3.  A run changes nothing but attribute sets and the end of the
    function list: every function of the input keeps its position, address,
    name and body, the non-instruction users are as they were, and so is the
    use list of every function. *)
Theorem X3_only_attributes_change (st : State) :
  ∃ KES st',
    visitor st = (Some KES, st')
    ∧ M_constants (st_module st') = M_constants (st_module st)
    ∧ (∀ i Fn, M_functions (st_module st) !! i = Some Fn →
         ∃ Fn', M_functions (st_module st') !! i = Some Fn'
                ∧ F_addr Fn' = F_addr Fn
                ∧ F_name Fn' = F_name Fn
                ∧ F_blocks Fn' = F_blocks Fn)
    ∧ (∀ a, uses (st_module st') a = uses (st_module st) a).
Proof.
  eexists _, _. split; [apply visitor_spec|].
  unfold visited. simpl. split; [|split].
  - unfold scanned. destruct (M_functions (st_module st)); [done|].
    by destruct (resolved_functions (st_module st)) as (? & _ & _ & _ & ?).
  - intros i Fn Hi. destruct (scanned_functions _ i Fn Hi) as [_ Hi'].
    eexists. rewrite list_lookup_fmap, Hi'. simpl. split; [done|].
    by case_decide.
  - intros a. by rewrite uses_annotated, uses_scanned.
Qed.

(** X4.  A function without a body, a declaration, is never collected and
    is left as it is; this holds for the marker declarations themselves,
    found or created. *)
Theorem X4_declarations_are_never_kernel_entries
    (st : State) (i : nat) (Fn : Function) :
  NoDup (F_addr <$> M_functions (scanned (st_module st))) →
  M_functions (scanned (st_module st)) !! i = Some Fn →
  F_blocks Fn = [] →
  ∃ KES st',
    visitor st = (Some KES, st')
    ∧ (F_addr Fn ∉ elements_of KES)
    ∧ M_functions (st_module st') !! i = Some Fn.
Proof.
  intros Hnd Hi Hbody. eexists _, _. split; [apply visitor_spec|].
  assert (Hout : F_addr Fn
                 ∉ elements_of (inserted (kernel_entries (scanned (st_module st))))).
  { rewrite elem_of_kernel_entries.
    rewrite classify_references by (done || by eapply list_elem_of_lookup_2).
    unfold references. rewrite Hbody. simpl. by intros [? _]. }
  split; [done|]. unfold visited, annotated. simpl.
  rewrite list_lookup_fmap, Hi. simpl. by rewrite decide_False.
Qed.

(** ** What the classification does not look at *)

Lemma declared_once_getFunction (Fs Fs' : list Function) (Cs Cs' : list (list Value))
    (FnID : RuntimeFunction) :
  Fs ≡ₚ Fs' →
  declared_once {| M_functions := Fs; M_constants := Cs |} FnID →
  ∃ Fn, getFunction {| M_functions := Fs; M_constants := Cs |}
          (RuntimeFunction_name FnID) = Some Fn
        ∧ getFunction {| M_functions := Fs'; M_constants := Cs' |}
            (RuntimeFunction_name FnID) = Some Fn.
Proof.
  intros Hperm [Fn HFn]. simpl in HFn. exists Fn. unfold getFunction. simpl.
  rewrite HFn. split; [done|].
  assert (Hf : filter (λ F, F_name F = RuntimeFunction_name FnID) Fs' ≡ₚ [Fn])
    by by rewrite <- Hperm, HFn.
  apply Permutation_singleton_r in Hf. by rewrite Hf.
Qed.

Lemma scan_uses_same_functions (M M' : Module) (a F : addr) :
  (∀ Fn, Fn ∈ M_functions M → Fn ∈ M_functions M') →
  scan_uses (uses M a) F = true → scan_uses (uses M' a) F = true.
Proof.
  intros Hincl. rewrite !scan_uses_references.
  intros (Fn & HFn & Haddr & Href). eauto.
Qed.

(** X5.  Whether a function is collected does not depend on the order in
    which the module stores its functions (nor on the non-instruction users
    of the module): two modules that declare each marker once and hold the
    same functions give sets with the same members. *)
Theorem X5_function_order_does_not_matter (st1 st2 : State) :
  M_functions (st_module st1) ≡ₚ M_functions (st_module st2) →
  (∀ FnID, declared_once (st_module st1) FnID) →
  ∃ KES1 st1' KES2 st2',
    visitor st1 = (Some KES1, st1')
    ∧ visitor st2 = (Some KES2, st2')
    ∧ ∀ F, F ∈ elements_of KES1 ↔ F ∈ elements_of KES2.
Proof.
  intros Hperm Hdecl. eexists _, _, _, _.
  split; [apply visitor_spec|]. split; [apply visitor_spec|].
  destruct (st_module st1) as [Fs1 Cs1], (st_module st2) as [Fs2 Cs2].
  simpl in Hperm.
  destruct (declared_once_getFunction Fs1 Fs2 Cs1 Cs2 _ Hperm
              (Hdecl OMPRTL___kmpc_target_init)) as (Fi & Hi1 & Hi2).
  destruct (declared_once_getFunction Fs1 Fs2 Cs1 Cs2 _ Hperm
              (Hdecl OMPRTL___kmpc_target_deinit)) as (Fd & Hd1 & Hd2).
  destruct (declared_resolved _ Fi Fd Hi1 Hd1) as (Hr1 & Hki1 & Hkd1).
  destruct (declared_resolved _ Fi Fd Hi2 Hd2) as (Hr2 & Hki2 & Hkd2).
  rewrite (resolved_scanned _ Hr1), (resolved_scanned _ Hr2).
  intros F. rewrite !elem_of_kernel_entries. unfold classify.
  rewrite Hki1, Hkd1, Hki2, Hkd2, !andb_true_iff. simpl.
  split; intros [[Hinit Hdeinit] Hin].
  - split; [split|by rewrite <- Hperm];
      (eapply scan_uses_same_functions; [|eassumption]);
      simpl; intros Fn HFn; by rewrite <- Hperm.
  - split; [split|by rewrite Hperm];
      (eapply scan_uses_same_functions; [|eassumption]);
      simpl; intros Fn HFn; by rewrite Hperm.
Qed.

Lemma references_same_instructions (Fn Fn' : Function) (a : addr) :
  same_instructions Fn Fn' → references Fn a = references Fn' a.
Proof.
  intros (_ & _ & Hperm). apply eq_true_iff_eq.
  rewrite !references_true. by setoid_rewrite Hperm.
Qed.

Lemma same_instructions_sym (Fn Fn' : Function) :
  same_instructions Fn Fn' → same_instructions Fn' Fn.
Proof. intros (? & ? & ?). by split; [|split]. Qed.

Lemma scan_uses_same_instructions (M M' : Module) (a F : addr) :
  Forall2 same_instructions (M_functions M) (M_functions M') →
  scan_uses (uses M a) F = true → scan_uses (uses M' a) F = true.
Proof.
  intros Hsame. rewrite !scan_uses_references.
  intros (Fn & [i Hi]%list_elem_of_lookup & Haddr & Href).
  destruct (Forall2_lookup_l _ _ _ _ _ Hsame Hi) as (Fn' & Hi' & HR).
  exists Fn'. split; [by eapply list_elem_of_lookup_2|].
  rewrite <- (references_same_instructions Fn Fn') by done.
  destruct HR as (<- & _). done.
Qed.

Lemma head_filter_same_instructions (P P' : Function → Prop)
    `{∀ Fn, Decision (P Fn)} `{∀ Fn, Decision (P' Fn)}
    (Fs Fs' : list Function) :
  (∀ Fn Fn', same_instructions Fn Fn' → P Fn ↔ P' Fn') →
  Forall2 same_instructions Fs Fs' →
  option_Forall2 same_instructions (head (filter P Fs)) (head (filter P' Fs')).
Proof.
  intros HP. induction 1 as [|Fn Fn' Fs Fs' HR _ IH]; [constructor|].
  rewrite !filter_cons. pose proof (HP Fn Fn' HR) as Hiff.
  destruct (decide (P Fn)), (decide (P' Fn')); try tauto.
  by constructor.
Qed.

Lemma same_instructions_flip (Fs Fs' : list Function) :
  Forall2 same_instructions Fs Fs' → Forall2 same_instructions Fs' Fs.
Proof.
  intros H. apply Forall2_flip. eapply Forall2_impl; [done|].
  intros ??. apply same_instructions_sym.
Qed.

Lemma getName_same_instructions (M M' : Module) (F : addr) :
  Forall2 same_instructions (M_functions M) (M_functions M') →
  getName M F = getName M' F.
Proof.
  intros Hsame. unfold getName.
  destruct (head_filter_same_instructions
              (λ Fn, F_addr Fn = F) (λ Fn, F_addr Fn = F) _ _
              ltac:(by intros ?? (-> & _)) Hsame) as [Fn Fn' (_ & HR & _)|];
    simpl; [exact HR|done].
Qed.

(** X6.  The classification looks at neither the place of the marker uses
    in the body nor the attributes: two modules whose functions are the same
    objects with the same names and the same instructions, arranged in any
    order and into any blocks, give the same set and the same diagnostic
    text.  In particular kernel-deinit may come before kernel-init. *)
Theorem X6_arrangement_of_bodies_does_not_matter (st1 st2 : State) :
  Forall2 same_instructions
    (M_functions (st_module st1)) (M_functions (st_module st2)) →
  (∀ FnID, declares (st_module st1) FnID = true) →
  ∃ KES st1' st2' text,
    visitor st1 = (Some KES, st1')
    ∧ visitor st2 = (Some KES, st2')
    ∧ st_outs st1' = st_outs st1 +:+ text
    ∧ st_outs st2' = st_outs st2 +:+ text.
Proof.
  intros Hsame Hdecl.
  assert (Hfound : ∀ FnID, ∃ Fn Fn',
            getFunction (st_module st1) (RuntimeFunction_name FnID) = Some Fn
            ∧ getFunction (st_module st2) (RuntimeFunction_name FnID) = Some Fn'
            ∧ F_addr Fn = F_addr Fn').
  { intros FnID. specialize (Hdecl FnID). unfold declares in Hdecl.
    apply bool_decide_eq_true in Hdecl as [Fn HFn].
    pose proof (head_filter_same_instructions
                  (λ F, F_name F = RuntimeFunction_name FnID)
                  (λ F, F_name F = RuntimeFunction_name FnID) _ _
                  ltac:(by intros ?? (_ & -> & _)) Hsame) as Hhead.
    unfold getFunction in *. rewrite HFn in Hhead.
    inversion Hhead as [? Fn' (Haddr & _) Heq1 Heq2|]; subst. eauto. }
  destruct (Hfound OMPRTL___kmpc_target_init) as (Fi & Fi' & Hi1 & Hi2 & Hia).
  destruct (Hfound OMPRTL___kmpc_target_deinit) as (Fd & Fd' & Hd1 & Hd2 & Hda).
  destruct (declared_resolved _ Fi Fd Hi1 Hd1) as (Hr1 & Hki1 & Hkd1).
  destruct (declared_resolved _ Fi' Fd' Hi2 Hd2) as (Hr2 & Hki2 & Hkd2).
  assert (Haddrs : F_addr <$> M_functions (st_module st1)
                   = F_addr <$> M_functions (st_module st2)).
  { clear -Hsame. induction Hsame as [|Fn Fn' Fs Fs' (Ha & _) _ IH]; [done|].
    by rewrite !fmap_cons, Ha, IH. }
  assert (Hclass : ∀ F, classify (st_module st1) F = classify (st_module st2) F).
  { intros F. unfold classify. rewrite Hki1, Hkd1, Hki2, Hkd2, Hia, Hda.
    f_equal; apply eq_true_iff_eq; split;
      apply scan_uses_same_instructions;
      done || by apply same_instructions_flip. }
  assert (Hke : kernel_entries (st_module st1) = kernel_entries (st_module st2)).
  { unfold kernel_entries. rewrite Haddrs. by apply filter_classify_ext. }
  eexists _, _, _, _.
  split; [apply visitor_spec|]. rewrite (visitor_spec st2).
  rewrite (resolved_scanned _ Hr1), (resolved_scanned _ Hr2), Hke.
  split; [done|]. unfold visited. simpl.
  rewrite (resolved_scanned _ Hr1), (resolved_scanned _ Hr2), Hke.
  split; [done|]. f_equal. unfold diagnostics.
  induction (elements_of _) as [|F L IH]; [done|]. simpl.
  by rewrite IH, (getName_same_instructions _ _ F Hsame).
Qed.

(** X7.  Whatever their number, the functions reported are the functions
    that use both markers, each reported with one line: the lines written
    are those of a rearrangement of the functions of the module that use
    both markers, and these functions are the members of the set. *)
Theorem X7_one_line_per_function_using_both_markers (st : State) :
  NoDup (F_addr <$> M_functions (scanned (st_module st))) →
  ∃ KES st' Fns,
    visitor st = (Some KES, st')
    ∧ Fns ≡ₚ filter (uses_both_markers (scanned (st_module st)))
               (M_functions (scanned (st_module st)))
    ∧ F_addr <$> Fns = elements_of KES
    ∧ st_outs st'
      = st_outs st
        +:+ foldr (λ Fn text,
                     ("Kernel entry function " +:+ F_name Fn +:+ newline)
                     +:+ text) "" Fns.
Proof.
  intros Hnd. set (M := scanned (st_module st)) in *.
  destruct (diagnostics_names M (elements_of (inserted (kernel_entries M))))
    as (Fns & Haddr & Hin & Htext).
  { intros F HF. by apply elem_of_kernel_entries in HF as [_ ?]. }
  eexists _, _, Fns. split; [apply visitor_spec|].
  split; [|split; [done|]].
  - apply NoDup_Permutation.
    + apply (NoDup_fmap_1 F_addr). rewrite Haddr.
      apply SmallPtrSet_wf_NoDup, inserted_spec.
    + apply NoDup_filter. by apply (NoDup_fmap_1 F_addr).
    + intros Fn. rewrite list_elem_of_filter. unfold uses_both_markers.
      rewrite Forall_forall in Hin. split.
      * intros HFn. pose proof (Hin Fn HFn) as HM. split; [|done].
        rewrite <- classify_references by done.
        apply (elem_of_kernel_entries M (F_addr Fn)).
        rewrite <- Haddr. apply list_elem_of_fmap. eauto.
      * intros [Huses HM].
        assert (HF : F_addr Fn ∈ F_addr <$> Fns).
        { rewrite Haddr. apply elem_of_kernel_entries.
          rewrite classify_references by done. split; [done|].
          apply list_elem_of_fmap. eauto. }
        apply list_elem_of_fmap in HF as (Fn' & Heq & HFn').
        by rewrite (function_at_unique _ Fn Fn' Hnd HM (Hin Fn' HFn')).
  - unfold visited. simpl. fold M. by rewrite Htext.
Qed.

(** ** Modules that do not declare the markers *)

Lemma closed_references (M : Module) (Fn : Function) (a : addr) :
  closed M = true → Fn ∈ M_functions M → references Fn a = true →
  a ∈ F_addr <$> M_functions M.
Proof.
  unfold closed. rewrite forallb_forall. intros Hclosed HFn Href.
  apply references_true in Href as (I & HI & Hop).
  specialize (Hclosed Fn (proj1 (list_elem_of_In _ _) HFn)).
  rewrite forallb_forall in Hclosed.
  specialize (Hclosed I (proj1 (list_elem_of_In _ _) HI)).
  rewrite forallb_forall in Hclosed.
  specialize (Hclosed _ (proj1 (list_elem_of_In _ _) Hop)).
  by apply bool_decide_eq_true in Hclosed.
Qed.

Lemma missing_marker_address (M : Module) :
  missing M ≠ [] →
  KernelInit_of M = allocate M ∨ KernelDeinit_of M = allocate M.
Proof.
  unfold missing, KernelInit_of, KernelDeinit_of.
  rewrite !filter_cons, filter_nil. unfold getOrCreateRuntimeFunction at 1 3.
  destruct (getFunction M (RuntimeFunction_name OMPRTL___kmpc_target_init))
    as [Fi|] eqn:Hi; simpl; [|by left].
  rewrite decide_False; last first.
  { rewrite getFunction_declares, Hi. done. }
  unfold getOrCreateRuntimeFunction.
  destruct (getFunction M (RuntimeFunction_name OMPRTL___kmpc_target_deinit))
    as [Fd|] eqn:Hd; simpl; [|by right].
  rewrite decide_False; [done|].
  rewrite getFunction_declares, Hd. done.
Qed.

Lemma filter_none {A : Type} (P : A → Prop) `{∀ x, Decision (P x)}
    (l : list A) :
  (∀ x, x ∈ l → ¬ P x) → filter P l = [].
Proof.
  induction l as [|x l IH]; intros Hnone; [done|].
  rewrite filter_cons, decide_False by (apply Hnone; left).
  apply IH. intros y Hy. apply Hnone. by right.
Qed.

(** X8.  A module that does not declare both markers has no kernel entry:
    when its instructions refer to its own functions only and the resolver
    creates the missing declaration at an unused address, the set stays
    empty and nothing is written (the missing declarations are created all
    the same, see X2). *)
Theorem X8_no_kernel_entry_without_declared_markers (st : State) :
  missing (st_module st) ≠ [] →
  closed (st_module st) = true →
  allocate (st_module st) ∉ F_addr <$> M_functions (st_module st) →
  ∃ st',
    visitor st = (Some SmallPtrSet_empty, st')
    ∧ st_outs st' = st_outs st
    ∧ ∀ i Fn, M_functions (st_module st) !! i = Some Fn →
              M_functions (st_module st') !! i = Some Fn.
Proof.
  intros Hmissing Hclosed Hfresh.
  assert (Hnone : kernel_entries (scanned (st_module st)) = []).
  { unfold kernel_entries. apply filter_none. intros F _ Hclass.
    unfold classify in Hclass. apply andb_true_iff in Hclass as [Hi Hd].
    rewrite uses_scanned in Hi, Hd.
    apply scan_uses_references in Hi as (Fi & HFi & _ & Hrefi).
    apply scan_uses_references in Hd as (Fd & HFd & _ & Hrefd).
    assert (Hne : M_functions (st_module st) ≠ [])
      by (intros H; rewrite H in HFi; by apply elem_of_nil in HFi).
    rewrite KernelInit_of_scanned in Hrefi by done.
    rewrite KernelDeinit_of_scanned in Hrefd by done.
    apply (closed_references _ _ _ Hclosed HFi) in Hrefi.
    apply (closed_references _ _ _ Hclosed HFd) in Hrefd.
    destruct (missing_marker_address _ Hmissing) as [H|H];
      rewrite H in *; done. }
  eexists. split; [by rewrite visitor_spec, Hnone|].
  unfold visited. rewrite Hnone. simpl. split; [apply append_nil_r|].
  intros i Fn Hi. destruct (scanned_functions _ i Fn Hi) as [_ Hi'].
  by rewrite list_lookup_fmap, Hi'.
Qed.

End Pass.

(** * The claims on the example units *)

(** The pass with LLVM's pointer hash, an attribute chosen for the
    examples, and the example allocator. *)
Notation "'example_visitor'" :=
  (visitor DenseMapInfo_getHashValue "kernel-entry" "true" next_addr no_attrs).

Lemma C1_witness :
  NoDup (F_addr <$> M_functions (scanned next_addr no_attrs unit_ABC))
  ∧ fn_A ∈ M_functions unit_ABC
  ∧ ∃ KES st',
      example_visitor (initial unit_ABC) = (Some KES, st')
      ∧ (F_addr fn_A ∈ elements_of KES
         ↔ references fn_A (KernelInit_of next_addr no_attrs unit_ABC) = true
           ∧ references fn_A (KernelDeinit_of next_addr no_attrs unit_ABC) = true)
      ∧ (has_direct_call fn_A (KernelInit_of next_addr no_attrs unit_ABC) = true
         ∧ has_direct_call fn_A (KernelDeinit_of next_addr no_attrs unit_ABC) = true
         → F_addr fn_A ∈ elements_of KES).
Proof.
  assert (Hnd : NoDup (F_addr <$> M_functions (scanned next_addr no_attrs unit_ABC)))
    by (apply (bool_decide_unpack _); vm_compute; exact I).
  assert (Hin : fn_A ∈ M_functions unit_ABC) by left.
  split; [exact Hnd|]. split; [exact Hin|].
  exact (C1_kernel_entry_iff_uses_both_markers DenseMapInfo_getHashValue
           "kernel-entry" "true" next_addr no_attrs (initial unit_ABC) fn_A
           Hnd Hin).
Defined.

(** C1 with "direct call" in place of "instruction that uses" does not
    hold: [G] ends up in the set although it holds no direct call of either
    marker. *)
Lemma C1_counterexample :
  ∃ st',
    example_visitor (initial unit_hooks) = (Some (SmallStorage [F_addr fn_G]), st')
    ∧ st_outs st' = "Kernel entry function G" +:+ newline
    ∧ has_direct_call fn_G (KernelInit_of next_addr no_attrs unit_hooks) = false
    ∧ has_direct_call fn_G (KernelDeinit_of next_addr no_attrs unit_hooks) = false.
Proof. eexists. split; [|split; [|split]]; vm_compute; reflexivity. Qed.

(** C3: the second run is not silent, it writes the line of the first run
    again. *)
Lemma C3_counterexample :
  ∃ KES st1 st2,
    example_visitor (initial unit_ABC) = (Some KES, st1)
    ∧ example_visitor st1 = (Some KES, st2)
    ∧ st_outs st1 = diagnostic "A"
    ∧ st_outs st2 = diagnostic "A" +:+ diagnostic "A".
Proof.
  exists (SmallStorage [F_addr fn_A]),
    (visited DenseMapInfo_getHashValue "kernel-entry" "true" next_addr no_attrs
       (initial unit_ABC)),
    (visited DenseMapInfo_getHashValue "kernel-entry" "true" next_addr no_attrs
       (visited DenseMapInfo_getHashValue "kernel-entry" "true" next_addr
          no_attrs (initial unit_ABC))).
  split; [|split; [|split]]; rewrite ?visitor_spec; vm_compute; reflexivity.
Qed.

Lemma C4_witness :
  NoDup (F_addr <$> M_functions (scanned next_addr no_attrs unit_helper))
  ∧ fn_caller ∈ M_functions unit_helper
  ∧ fn_helper ∈ M_functions unit_helper
  ∧ has_direct_call fn_caller (F_addr fn_helper) = true
  ∧ has_direct_call fn_helper (KernelInit_of next_addr no_attrs unit_helper) = true
  ∧ has_direct_call fn_helper (KernelDeinit_of next_addr no_attrs unit_helper) = true
  ∧ references fn_caller (KernelInit_of next_addr no_attrs unit_helper)
    && references fn_caller (KernelDeinit_of next_addr no_attrs unit_helper) = false
  ∧ ∃ KES st',
      example_visitor (initial unit_helper) = (Some KES, st')
      ∧ F_addr fn_helper ∈ elements_of KES
      ∧ F_addr fn_caller ∉ elements_of KES.
Proof.
  assert (Hnd : NoDup (F_addr <$> M_functions (scanned next_addr no_attrs unit_helper)))
    by (apply (bool_decide_unpack _); vm_compute; exact I).
  assert (Hc : fn_caller ∈ M_functions unit_helper) by left.
  assert (Hh : fn_helper ∈ M_functions unit_helper) by (right; left).
  repeat (split; [first [exact Hnd | exact Hc | exact Hh | vm_compute; reflexivity]|]).
  exact (C4_callee_calls_do_not_count DenseMapInfo_getHashValue
           "kernel-entry" "true" next_addr no_attrs (initial unit_helper)
           fn_caller fn_helper Hnd Hc Hh eq_refl eq_refl eq_refl eq_refl).
Defined.

(** C4 with "direct call" in place of "instruction that uses" does not
    hold: [storing_caller] holds no direct call of a marker and calls a
    helper that calls both, and it is in the set. *)
Lemma C4_counterexample :
  has_direct_call fn_storing_caller
    (KernelInit_of next_addr no_attrs unit_storing_caller) = false
  ∧ has_direct_call fn_storing_caller
      (KernelDeinit_of next_addr no_attrs unit_storing_caller) = false
  ∧ has_direct_call fn_storing_caller (F_addr fn_helper) = true
  ∧ has_direct_call fn_helper
      (KernelInit_of next_addr no_attrs unit_storing_caller) = true
  ∧ has_direct_call fn_helper
      (KernelDeinit_of next_addr no_attrs unit_storing_caller) = true
  ∧ ∃ st',
      example_visitor (initial unit_storing_caller)
      = (Some (SmallStorage [F_addr fn_storing_caller; F_addr fn_helper]), st').
Proof.
  repeat (split; [vm_compute; reflexivity|]).
  eexists. vm_compute. reflexivity.
Qed.

(** C7: the markers are not resolved once before the scan.  On a module of
    two functions that declares no marker, kernel-init is resolved four
    times, three of them after a function has been classified. *)
Lemma C7_counterexample :
  ∃ KES st',
    example_visitor (initial unit_two) = (Some KES, st')
    ∧ st_log st'
      = [Resolved OMPRTL___kmpc_target_init 0x2010;
         Resolved OMPRTL___kmpc_target_deinit 0x2020;
         Classified 0x1000 false;
         Resolved OMPRTL___kmpc_target_init 0x2010;
         Resolved OMPRTL___kmpc_target_deinit 0x2020;
         Classified 0x2000 false;
         Resolved OMPRTL___kmpc_target_init 0x2010;
         Resolved OMPRTL___kmpc_target_deinit 0x2020;
         Classified 0x2010 false;
         Resolved OMPRTL___kmpc_target_init 0x2010;
         Resolved OMPRTL___kmpc_target_deinit 0x2020;
         Classified 0x2020 false]
    ∧ resolutions OMPRTL___kmpc_target_init (st_log st') = 4.
Proof.
  eexists _, _. split; [apply visitor_spec|]. split; vm_compute; reflexivity.
Qed.

(** C9 on a run that annotates eight functions: they are reported in the
    order in which the module stores them, which is neither the order of
    their addresses nor that of their hash values. *)
Lemma C9_witness :
  NoDup (F_addr <$> M_functions (scanned next_addr no_attrs unit_eight))
  ∧ length (kernel_entries next_addr no_attrs
              (scanned next_addr no_attrs unit_eight)) ≤ SmallSize
  ∧ kernel_entries next_addr no_attrs (scanned next_addr no_attrs unit_eight)
    = [0x9000; 0x8000; 0x7000; 0x6000; 0x5000; 0x4000; 0x3000; 0x2000]%N
  ∧ ∃ KES st',
      example_visitor (initial unit_eight) = (Some KES, st')
      ∧ (∀ F, F ∈ elements_of KES
              ↔ F ∈ kernel_entries next_addr no_attrs
                      (scanned next_addr no_attrs unit_eight))
      ∧ elements_of KES
        = kernel_entries next_addr no_attrs
            (scanned next_addr no_attrs unit_eight)
      ∧ st_outs st'
        = st_outs (initial unit_eight)
          +:+ diagnostics (scanned next_addr no_attrs unit_eight)
                (kernel_entries next_addr no_attrs
                   (scanned next_addr no_attrs unit_eight)).
Proof.
  assert (Hnd : NoDup (F_addr <$> M_functions
                         (scanned next_addr no_attrs unit_eight)))
    by (apply (bool_decide_unpack _); vm_compute; exact I).
  assert (Hlen : length (kernel_entries next_addr no_attrs
                           (scanned next_addr no_attrs unit_eight)) ≤ SmallSize)
    by (vm_compute; lia).
  split; [exact Hnd|]. split; [exact Hlen|].
  split; [vm_compute; reflexivity|].
  exact (C9_module_order_while_small DenseMapInfo_getHashValue
           "kernel-entry" "true" next_addr no_attrs (initial unit_eight)
           Hnd Hlen).
Defined.

(** C9: the stored order is not kept beyond [SmallSize] entries.  Nine
    kernel entries stored as [k1], ..., [k9] are reported from [k9] to [k1],
    the order of their hash buckets. *)
Lemma C9_counterexample :
  ∃ KES st',
    example_visitor (initial unit_nine) = (Some KES, st')
    ∧ kernel_entries next_addr no_attrs unit_nine
      = [0x9000; 0x8000; 0x7000; 0x6000; 0x5000; 0x4000; 0x3000; 0x2000;
         0x1000]%N
    ∧ elements_of KES
      = [0x1000; 0x2000; 0x3000; 0x4000; 0x5000; 0x6000; 0x7000; 0x8000;
         0x9000]%N
    ∧ st_outs st'
      = diagnostic "k9" +:+ diagnostic "k8" +:+ diagnostic "k7"
        +:+ diagnostic "k6" +:+ diagnostic "k5" +:+ diagnostic "k4"
        +:+ diagnostic "k3" +:+ diagnostic "k2" +:+ diagnostic "k1".
Proof.
  eexists _, _. split; [apply visitor_spec|].
  split; [|split]; vm_compute; reflexivity.
Qed.

(** A call through a cast of a marker is a use by a constant expression and
    does not count (C10): [caster] is not collected, nothing is written. *)
Example cast_calls_do_not_count :
  ∃ st',
    example_visitor (initial unit_cast) = (Some SmallPtrSet_empty, st')
    ∧ st_outs st' = ""
    ∧ M_functions (st_module st') = M_functions unit_cast.
Proof. eexists. split; [|split]; vm_compute; reflexivity. Qed.

(** The scenario of three functions: only [A] is collected and reported;
    [B] and [C] are as they were. *)
Example scenario_ABC :
  ∃ st',
    example_visitor (initial unit_ABC) = (Some (SmallStorage [F_addr fn_A]), st')
    ∧ st_outs st' = diagnostic "A"
    ∧ M_functions (st_module st')
      = [addFnAttr_to "kernel-entry" "true" fn_A; fn_B; fn_C;
         decl_init; decl_deinit].
Proof. eexists. split; [|split]; vm_compute; reflexivity. Qed.

(** A module without functions: nothing is resolved, collected or
    written. *)
Example scenario_empty :
  example_visitor (initial (mkModule [] []))
  = (Some SmallPtrSet_empty, initial (mkModule [] [])).
Proof. reflexivity. Qed.

(** * The further properties on the example units *)

Lemma X1_witness :
  M_functions (st_module state_without_functions) = []
  ∧ example_visitor state_without_functions
    = (Some SmallPtrSet_empty, state_without_functions)
  ∧ run DenseMapInfo_getHashValue "kernel-entry" "true" next_addr no_attrs
      state_without_functions
    = (Some (SmallPtrSet_empty, PreservedAnalyses_none), state_without_functions)
  ∧ runOnModule DenseMapInfo_getHashValue "kernel-entry" "true" next_addr
      no_attrs state_without_functions
    = (Some (SmallPtrSet_empty, true), state_without_functions).
Proof.
  split; [reflexivity|].
  exact (X1_unit_without_functions_is_left_alone DenseMapInfo_getHashValue
           "kernel-entry" "true" next_addr no_attrs state_without_functions
           eq_refl).
Defined.

Lemma X2_witness :
  M_functions (st_module (initial unit_two)) ≠ []
  ∧ ∃ KES st',
      example_visitor (initial unit_two) = (Some KES, st')
      ∧ F_name <$> M_functions (st_module st')
        = (F_name <$> M_functions (st_module (initial unit_two)))
          ++ (RuntimeFunction_name <$> missing (st_module (initial unit_two)))
      ∧ (∀ i Fn, M_functions (st_module st') !! i = Some Fn →
                 length (M_functions (st_module (initial unit_two))) ≤ i →
                 F_blocks Fn = [])
      ∧ (∀ FnID, is_Some (getFunction (st_module st')
                            (RuntimeFunction_name FnID))).
Proof.
  assert (Hne : M_functions (st_module (initial unit_two)) ≠ [])
    by (simpl; discriminate).
  split; [exact Hne|].
  exact (X2_missing_markers_are_declared DenseMapInfo_getHashValue
           "kernel-entry" "true" next_addr no_attrs (initial unit_two) Hne).
Defined.

Lemma X4_witness :
  NoDup (F_addr <$> M_functions
           (scanned next_addr no_attrs (st_module (initial unit_ABC))))
  ∧ M_functions (scanned next_addr no_attrs (st_module (initial unit_ABC))) !! 3
    = Some decl_init
  ∧ F_blocks decl_init = []
  ∧ ∃ KES st',
      example_visitor (initial unit_ABC) = (Some KES, st')
      ∧ (F_addr decl_init ∉ elements_of KES)
      ∧ M_functions (st_module st') !! 3 = Some decl_init.
Proof.
  assert (Hnd : NoDup (F_addr <$> M_functions
                         (scanned next_addr no_attrs (st_module (initial unit_ABC)))))
    by (apply (bool_decide_unpack _); vm_compute; exact I).
  split; [exact Hnd|]. split; [reflexivity|]. split; [reflexivity|].
  exact (X4_declarations_are_never_kernel_entries DenseMapInfo_getHashValue
           "kernel-entry" "true" next_addr no_attrs (initial unit_ABC) 3
           decl_init Hnd eq_refl eq_refl).
Defined.

Lemma X5_witness :
  M_functions (st_module (initial unit_ABC))
  ≡ₚ M_functions (st_module (initial unit_CAB))
  ∧ (∀ FnID, declared_once (st_module (initial unit_ABC)) FnID)
  ∧ ∃ KES1 st1' KES2 st2',
      example_visitor (initial unit_ABC) = (Some KES1, st1')
      ∧ example_visitor (initial unit_CAB) = (Some KES2, st2')
      ∧ ∀ F, F ∈ elements_of KES1 ↔ F ∈ elements_of KES2.
Proof.
  assert (Hperm : M_functions (st_module (initial unit_ABC))
                  ≡ₚ M_functions (st_module (initial unit_CAB)))
    by (apply (bool_decide_unpack _); vm_compute; exact I).
  assert (Hdecl : ∀ FnID, declared_once (st_module (initial unit_ABC)) FnID).
  { intros [|]; [exists decl_init|exists decl_deinit]; reflexivity. }
  split; [exact Hperm|]. split; [exact Hdecl|].
  exact (X5_function_order_does_not_matter DenseMapInfo_getHashValue
           "kernel-entry" "true" next_addr no_attrs
           (initial unit_ABC) (initial unit_CAB) Hperm Hdecl).
Defined.

Lemma X6_witness :
  Forall2 same_instructions
    (M_functions (st_module (initial unit_ABC)))
    (M_functions (st_module (initial unit_ABC_rearranged)))
  ∧ (∀ FnID, declares (st_module (initial unit_ABC)) FnID = true)
  ∧ ∃ KES st1' st2' text,
      example_visitor (initial unit_ABC) = (Some KES, st1')
      ∧ example_visitor (initial unit_ABC_rearranged) = (Some KES, st2')
      ∧ st_outs st1' = st_outs (initial unit_ABC) +:+ text
      ∧ st_outs st2' = st_outs (initial unit_ABC_rearranged) +:+ text.
Proof.
  assert (Hsame : Forall2 same_instructions
                    (M_functions (st_module (initial unit_ABC)))
                    (M_functions (st_module (initial unit_ABC_rearranged)))).
  { repeat constructor;
      apply (bool_decide_unpack _); vm_compute; exact I. }
  assert (Hdecl : ∀ FnID, declares (st_module (initial unit_ABC)) FnID = true)
    by (intros [|]; reflexivity).
  split; [exact Hsame|]. split; [exact Hdecl|].
  exact (X6_arrangement_of_bodies_does_not_matter DenseMapInfo_getHashValue
           "kernel-entry" "true" next_addr no_attrs
           (initial unit_ABC) (initial unit_ABC_rearranged) Hsame Hdecl).
Defined.

Lemma X7_witness :
  NoDup (F_addr <$> M_functions
           (scanned next_addr no_attrs (st_module (initial unit_nine))))
  ∧ ∃ KES st' Fns,
      example_visitor (initial unit_nine) = (Some KES, st')
      ∧ Fns ≡ₚ filter (uses_both_markers next_addr no_attrs
                         (scanned next_addr no_attrs
                            (st_module (initial unit_nine))))
                 (M_functions (scanned next_addr no_attrs
                                 (st_module (initial unit_nine))))
      ∧ F_addr <$> Fns = elements_of KES
      ∧ st_outs st'
        = st_outs (initial unit_nine)
          +:+ foldr (λ Fn text,
                       ("Kernel entry function " +:+ F_name Fn +:+ newline)
                       +:+ text) "" Fns.
Proof.
  assert (Hnd : NoDup (F_addr <$> M_functions
                         (scanned next_addr no_attrs
                            (st_module (initial unit_nine)))))
    by (apply (bool_decide_unpack _); vm_compute; exact I).
  split; [exact Hnd|].
  exact (X7_one_line_per_function_using_both_markers DenseMapInfo_getHashValue
           "kernel-entry" "true" next_addr no_attrs (initial unit_nine) Hnd).
Defined.

(** The example allocator places a new function above all the functions of
    the module. *)
Lemma next_addr_unused (M : Module) :
  next_addr M ∉ F_addr <$> M_functions M.
Proof.
  unfold next_addr.
  assert (Hmax : ∀ l a, a ∈ l → (a ≤ foldr N.max 0 l)%N).
  { induction l as [|b l IH]; intros a Ha; [by apply elem_of_nil in Ha|].
    simpl. apply elem_of_cons in Ha as [->|Ha]; [lia|].
    specialize (IH a Ha). lia. }
  intros Hin. specialize (Hmax _ _ Hin). lia.
Qed.

Lemma X8_witness :
  missing (st_module (initial unit_two)) ≠ []
  ∧ closed (st_module (initial unit_two)) = true
  ∧ (next_addr (st_module (initial unit_two))
     ∉ F_addr <$> M_functions (st_module (initial unit_two)))
  ∧ ∃ st',
      example_visitor (initial unit_two) = (Some SmallPtrSet_empty, st')
      ∧ st_outs st' = st_outs (initial unit_two)
      ∧ ∀ i Fn, M_functions (st_module (initial unit_two)) !! i = Some Fn →
                M_functions (st_module st') !! i = Some Fn.
Proof.
  assert (Hmissing : missing (st_module (initial unit_two)) ≠ [])
    by (vm_compute; discriminate).
  assert (Hfresh : next_addr (st_module (initial unit_two))
                   ∉ F_addr <$> M_functions (st_module (initial unit_two)))
    by apply next_addr_unused.
  split; [exact Hmissing|]. split; [reflexivity|]. split; [exact Hfresh|].
  exact (X8_no_kernel_entry_without_declared_markers DenseMapInfo_getHashValue
           "kernel-entry" "true" next_addr no_attrs (initial unit_two)
           Hmissing eq_refl Hfresh).
Defined.

(** Eight kernel entries are reported as they are stored, [k1] to [k8]; the
    ninth of [unit_nine] turns the order over ([C9_counterexample]). *)
Example eight_kernels_in_stored_order :
  ∃ st',
    example_visitor (initial unit_eight)
    = (Some (SmallStorage
               [0x9000; 0x8000; 0x7000; 0x6000; 0x5000; 0x4000; 0x3000;
                0x2000]%N), st')
    ∧ st_outs st'
      = diagnostic "k1" +:+ diagnostic "k2" +:+ diagnostic "k3"
        +:+ diagnostic "k4" +:+ diagnostic "k5" +:+ diagnostic "k6"
        +:+ diagnostic "k7" +:+ diagnostic "k8".
Proof. eexists. split; vm_compute; reflexivity. Qed.
